(** * web3.js: the transaction submission pipeline and [Web3Eth.getSha3]

    A shallow embedding of
    - [sendTransaction] and [sendSignedTransaction] (the function-style
      wrappers of web3-eth that return a [PromiEvent]), and
    - [Web3Eth.getSha3] (packages/web3-eth/src/index.ts),
    together with the properties the specification states about them.

    The asynchronous body of a submission is a computation in a small
    state-and-exception monad [Async]: the state is the [World] (the
    [PromiEvent] handle and a log of every observable action), an exception
    is a rejected [await].  Every [await] is a suspension point at which
    the caller may register listeners. *)

From Stdlib Require Import String ZArith List Bool Arith Lia Sorted.
From ExtLib Require Import Structures.Monad.
Import ListNotations.
Import MonadNotation.
Local Open Scope monad_scope.

(* ===================================================================== *)
(** ** packages/web3-eth/src/index.ts: [Web3Eth.getSha3] *)
(* ===================================================================== *)

Module Web3Eth.

(** [HttpRpcOptions]: [{ id?: number, jsonrpc?: string }]. *)
Record HttpRpcOptions := mkRpcOptions {
  id : option Z;
  jsonrpc : option string
}.

(** The object handed to [_requestManager.send]. *)
Record RpcRequest := mkRequest {
  req_id : option Z;
  req_method : string;
  req_jsonrpc : string;
  req_params : list string
}.

Definition _DEFAULT_JSON_RPC_VERSION : string := "2.0"%string.

(** [rpcOptions?.jsonrpc || this._DEFAULT_JSON_RPC_VERSION]: the empty
    string is falsy in JavaScript, as is [undefined]. *)
Definition jsonrpc_or_default (rpcOptions : option HttpRpcOptions) : string :=
  match rpcOptions with
  | None => _DEFAULT_JSON_RPC_VERSION
  | Some o =>
      match jsonrpc o with
      | None => _DEFAULT_JSON_RPC_VERSION
      | Some EmptyString => _DEFAULT_JSON_RPC_VERSION
      | Some v => v
      end
  end.

(** [{ ...rpcOptions, method: 'eth_sha3', jsonrpc: ..., params: [] }] *)
Definition getSha3_request (data : string) (rpcOptions : option HttpRpcOptions)
  : RpcRequest :=
  {| req_id := match rpcOptions with Some o => id o | None => None end;
     req_method := "eth_sha3"%string;
     req_jsonrpc := jsonrpc_or_default rpcOptions;
     req_params := [] |}.

Section Node.
(** The request manager in front of one node state: a request is
    answered by a result or rejected with an error message. *)
Variable send : RpcRequest -> string + string.

(** [try { return await send(...) } catch (error) { throw Error(...) }] *)
Definition getSha3 (data : string) (rpcOptions : option HttpRpcOptions)
  : string + string :=
  match send (getSha3_request data rpcOptions) with
  | inr result => inr result
  | inl message => inl ("Error getting sha3 hash: " ++ message)%string
  end.
End Node.

End Web3Eth.

(* ===================================================================== *)
(** ** The submission pipeline: data model *)
(* ===================================================================== *)

Definition HexString := string.

(** [Transaction] (web3-eth types): every field is optional. *)
Record Transaction := mkTransaction {
  from : option HexString;
  to : option HexString;
  value : option HexString;
  data : option HexString;
  gas : option HexString;
  gasPrice : option HexString;
  maxPriorityFeePerGas : option HexString;
  maxFeePerGas : option HexString;
  nonce : option HexString
}.

(** [SendTransactionOptions]: [{ ignoreGasPricing?: boolean }]. *)
Record SendTransactionOptions := mkOptions {
  ignoreGasPricing : option bool
}.

(** [ReceiptInfo], reduced to the fields of the specification's Receipt. *)
Record ReceiptInfo := mkReceipt {
  blockHash : HexString;
  blockNumber : Z;
  transactionIndex : Z;
  status : bool;
  gasUsed : Z;
  logs : list HexString
}.

(** The failures of the specification's taxonomy; the pipeline itself
    constructs none of them, it only lets them through. *)
Inductive Error :=
| ValidationError (message : string)
| PricingError (message : string)
| TransportError (message : string)
| TimeoutError.

(** The six lifecycle event tags. *)
Inductive Tag := sending | sent | transactionHash | receipt | confirmation | error.

Definition Tag_eqb (a b : Tag) : bool :=
  match a, b with
  | sending, sending | sent, sent | transactionHash, transactionHash
  | receipt, receipt | confirmation, confirmation | error, error => true
  | _, _ => false
  end.

Inductive Payload :=
| PTransaction (t : Transaction)
| PSigned (raw : HexString)
| PHash (h : HexString)
| PReceipt (r : ReceiptInfo)
| PConfirmation (confirmations : Z) (r : ReceiptInfo)
| PError (e : Error).

(** What a gas pricing query answers: an object whose properties may be
    missing ([None]) or present, possibly with the value [undefined]
    ([Some None]); the whole answer may be [undefined] too. *)
Record GasPricing := mkPricing {
  p_gasPrice : option (option HexString);
  p_maxPriorityFeePerGas : option (option HexString);
  p_maxFeePerGas : option (option HexString)
}.

(** Object spread [{ ..._transaction, ...pricing }]: a property of the
    right operand wins whenever it is present. *)
Definition spread_field {A} (l : option A) (r : option (option A)) : option A :=
  match r with
  | Some v => v
  | None => l
  end.

Definition spread (t : Transaction) (pricing : option GasPricing) : Transaction :=
  match pricing with
  | None => t
  | Some p =>
      {| from := from t; to := to t; value := value t; data := data t;
         gas := gas t;
         gasPrice := spread_field (gasPrice t) (p_gasPrice p);
         maxPriorityFeePerGas :=
           spread_field (maxPriorityFeePerGas t) (p_maxPriorityFeePerGas p);
         maxFeePerGas := spread_field (maxFeePerGas t) (p_maxFeePerGas p);
         nonce := nonce t |}
  end.

(** The calls the pipeline makes on its collaborators. *)
Inductive Call :=
| getTransactionGasPricing_call (t : Transaction)
| eth_sendTransaction (t : Transaction)
| eth_sendRawTransaction (raw : HexString)
| eth_getTransactionReceipt (h : HexString)
| eth_blockNumber.

Inductive Action :=
| ACall (c : Call)
| AEmit (t : Tag) (p : Payload)
| AResolve (r : ReceiptInfo)
| AWatch (r : ReceiptInfo) (h : HexString).

Definition Listener := nat.

(** One line of the log: what happened, and the listener table of the
    handle at that moment. *)
Record Entry := mkEntry {
  act : Action;
  regs : list (Tag * Listener)
}.

Inductive Settlement :=
| Pending
| Resolved (r : ReceiptInfo)
| Rejected (e : Error).

(** The handle of one submission and everything observable about it.
    [listeners], [delivered] and [settled] are the [PromiEvent]; [log] is
    the chronological record of calls, emissions and resolution. *)
Record World := mkWorld {
  listeners : list (Tag * Listener);
  delivered : list (Listener * Tag * Payload);
  settled : Settlement;
  log : list Entry
}.

(** The places where the body is suspended and other code may run. *)
Inductive SuspensionPoint :=
| SP_tick
| SP_pricing
| SP_broadcast
| SP_receipt
| SP_poll (attempt : nat)
| SP_head (index : nat).

Definition Result (A : Type) : Type := Error + A.

(** Everything outside the pipeline: its collaborators, the node, the
    configuration and the caller. *)
Record Env := mkEnv {
  formatTransaction : Transaction -> Transaction;
  getTransactionGasPricing : Transaction -> Result (option GasPricing);
  rpc_sendTransaction : Transaction -> Result HexString;
  rpc_sendRawTransaction : HexString -> Result HexString;
  (** the answer to the [n]-th receipt query for a hash *)
  rpc_getTransactionReceipt : HexString -> nat -> Result (option ReceiptInfo);
  (** the polling deadline, as a number of attempts *)
  pollAttempts : nat;
  (** the answers to the block-height checks of the confirmation watcher,
      in order: the current block number, or the failure of the check *)
  blockHeads : list (Result Z);
  (** the listeners the caller registers while the body is suspended *)
  callerAttaches : SuspensionPoint -> list (Tag * Listener)
}.

(* ===================================================================== *)
(** ** Asynchronous computations *)
(* ===================================================================== *)

Inductive Outcome (A : Type) :=
| Returned (a : A)
| Thrown (e : Error).
Arguments Returned {A} a.
Arguments Thrown {A} e.

(** An [async] computation: it transforms the world and either returns or
    throws.  What was done before a throw stays done. *)
Definition Async (A : Type) : Type := World -> Outcome A * World.

#[global] Instance Monad_Async : Monad Async := {|
  ret := fun A (a : A) (w : World) => (Returned a, w);
  bind := fun A B (c : Async A) (k : A -> Async B) (w : World) =>
            match c w with
            | (Returned a, w') => k a w'
            | (Thrown e, w') => (Thrown e, w')
            end
|}.

Definition throw {A : Type} (e : Error) : Async A :=
  fun w => (Thrown e, w).

(** Append a line to the log, stamped with the current listener table. *)
Definition record (a : Action) : Async unit :=
  fun w =>
    (Returned tt,
     {| listeners := listeners w; delivered := delivered w;
        settled := settled w;
        log := log w ++ [mkEntry a (listeners w)] |}).

(* --------------------------------------------------------------------- *)
(** *** The [PromiEvent] handle *)

(** The listeners a table holds for a tag, in registration order. *)
Definition registered (t : Tag) (table : list (Tag * Listener)) : list Listener :=
  map snd (filter (fun x => Tag_eqb (fst x) t) table).

(** Modelled from the spec: [PromiEvent] (web3-common) is not among the
    sources.  Design note of the specification: a listener-registration
    table consulted at emission time only, no buffering and no replay; a
    suspension primitive resolved exactly once.  Registering listeners
    extends the table and does nothing else. *)
Definition on_all (ls : list (Tag * Listener)) (w : World) : World :=
  {| listeners := listeners w ++ ls; delivered := delivered w;
     settled := settled w; log := log w |}.

(** Modelled from the spec: [PromiEvent.on] ([Handle.onEvent]), the
    registration of one listener. *)
Definition on (t : Tag) (l : Listener) (w : World) : World :=
  on_all [(t, l)] w.

(** Modelled from the spec: [PromiEvent.listenerCount], the number of
    listeners the table holds for a tag. *)
Definition listenerCount (t : Tag) : Async nat :=
  fun w => (Returned (length (registered t (listeners w))), w).

(** Modelled from the spec: [PromiEvent.emit] calls each listener that
    the table holds for the tag at this moment, once per registration.  A
    listener is taken to return normally. *)
Definition emit (t : Tag) (p : Payload) : Async unit :=
  fun w =>
    (Returned tt,
     {| listeners := listeners w;
        delivered := delivered w
                     ++ map (fun l => (l, t, p)) (registered t (listeners w));
        settled := settled w;
        log := log w ++ [mkEntry (AEmit t p) (listeners w)] |}).

(** Modelled from the spec: the [resolve] of the handle's promise; only
    the first settlement counts. *)
Definition resolve (r : ReceiptInfo) : Async unit :=
  fun w =>
    (Returned tt,
     {| listeners := listeners w; delivered := delivered w;
        settled := match settled w with
                   | Pending => Resolved r
                   | s => s
                   end;
        log := log w ++ [mkEntry (AResolve r) (listeners w)] |}).

(** Modelled from the spec: a fresh [PromiEvent], pending and without
    listeners. *)
Definition newPromiEvent : World :=
  {| listeners := []; delivered := []; settled := Pending; log := [] |}.

(** [Handle.result()]: what awaiting the handle yields, if anything. *)
Definition result (w : World) : Settlement := settled w.

(** The payloads a listener was called with for a tag, in order. *)
Definition receivedIn (l : Listener) (t : Tag)
           (D : list (Listener * Tag * Payload)) : list Payload :=
  map snd
      (filter (fun d => Nat.eqb (fst (fst d)) l && Tag_eqb (snd (fst d)) t) D).

Definition received (l : Listener) (t : Tag) (w : World) : list Payload :=
  receivedIn l t (delivered w).

Section Pipeline.

Variable env : Env.

(** The body is suspended at [p]: the caller's code runs. *)
Definition suspend (p : SuspensionPoint) : Async unit :=
  fun w => (Returned tt, on_all (callerAttaches env p) w).

(** [await call]: the call is issued, the body is suspended, and it
    resumes with the answer or with the error thrown. *)
Definition await {A : Type} (p : SuspensionPoint) (c : Call)
           (answer : Result A) : Async A :=
  record (ACall c) ;;
  suspend p ;;
  match answer with
  | inr a => ret a
  | inl e => throw e
  end.

(** Modelled from the spec: [waitForTransactionReceipt] (the Receipt
    Poller) is not among the sources.  It queries again at each attempt;
    an absent receipt triggers the next attempt, any other error is
    forwarded at once, and the deadline ends it with a timeout failure. *)
Fixpoint waitForTransactionReceipt_from (budget attempt : nat)
         (txHash : HexString) : Async ReceiptInfo :=
  match budget with
  | O => throw TimeoutError
  | S budget' =>
      response <- await (SP_poll attempt) (eth_getTransactionReceipt txHash)
                        (rpc_getTransactionReceipt env txHash (S attempt)) ;;
      match response with
      | Some r => ret r
      | None => waitForTransactionReceipt_from budget' (S attempt) txHash
      end
  end.

(** Modelled from the spec: the poller as [sendTransaction] calls it, with
    the configured deadline. *)
Definition waitForTransactionReceipt (txHash : HexString) : Async ReceiptInfo :=
  waitForTransactionReceipt_from (pollAttempts env) 0 txHash.

(** Modelled from the spec: [watchTransactionForConfirmations] (the
    Confirmation Watcher) is not among the sources.  Each block-height
    check is a call of the node and a suspension point.  From the answer
    it computes [currentBlock - receipt.blockNumber] and emits
    [confirmation] each time the count increases.  A check that fails
    ends the watch; the failure surfaces as an [error] event only. *)
Fixpoint watch_heads (r : ReceiptInfo) (heads : list (Result Z)) (index : nat)
         (count : Z) : Async unit :=
  match heads with
  | [] => ret tt
  | answer :: heads' =>
      record (ACall eth_blockNumber) ;;
      suspend (SP_head index) ;;
      match answer with
      | inl e => emit error (PError e)
      | inr currentBlock =>
          let confirmations := (currentBlock - blockNumber r)%Z in
          if (count <? confirmations)%Z then
            emit confirmation (PConfirmation confirmations r) ;;
            watch_heads r heads' (S index) confirmations
          else
            watch_heads r heads' (S index) count
      end
  end.

(** Modelled from the spec: the watcher as the submission calls it.  The
    call is not awaited: the watcher never throws into the body. *)
Definition watchTransactionForConfirmations (r : ReceiptInfo)
           (txHash : HexString) : Async unit :=
  record (AWatch r txHash) ;;
  watch_heads r (blockHeads env) 0 0%Z.

(* ------------------------------------------------------------------- *)
(** *** [sendTransaction] *)

(** [!options?.ignoreGasPricing] *)
Definition pricingNotIgnored (options : option SendTransactionOptions) : bool :=
  match options with
  | None => true
  | Some o =>
      match ignoreGasPricing o with
      | None => true
      | Some b => negb b
      end
  end.

Definition is_undefined {A : Type} (x : option A) : bool :=
  match x with
  | None => true
  | Some _ => false
  end.

(** The condition of the [if] that guards gas pricing resolution. *)
Definition needsGasPricing (transaction : Transaction)
           (options : option SendTransactionOptions) : bool :=
  pricingNotIgnored options
  && is_undefined (gasPrice transaction)
  && (is_undefined (maxPriorityFeePerGas transaction)
      || is_undefined (maxFeePerGas transaction)).

(** The body of the [async] arrow function handed to [setImmediate]. *)
Definition sendTransaction_task (transaction _transaction0 : Transaction)
           (options : option SendTransactionOptions) : Async unit :=
  _transaction <-
    (if needsGasPricing transaction options then
       pricing <- await SP_pricing
                        (getTransactionGasPricing_call _transaction0)
                        (getTransactionGasPricing env _transaction0) ;;
       ret (spread _transaction0 pricing)
     else ret _transaction0) ;;

  n <- listenerCount sending ;;
  (if 0 <? n then emit sending (PTransaction _transaction) else ret tt) ;;

  txHash <- await SP_broadcast (eth_sendTransaction _transaction)
                  (rpc_sendTransaction env _transaction) ;;

  n <- listenerCount sent ;;
  (if 0 <? n then emit sent (PTransaction _transaction) else ret tt) ;;

  n <- listenerCount transactionHash ;;
  (if 0 <? n then emit transactionHash (PHash txHash) else ret tt) ;;

  transactionReceipt <- await SP_receipt (eth_getTransactionReceipt txHash)
                              (rpc_getTransactionReceipt env txHash 0) ;;

  transactionReceipt <-
    match transactionReceipt with
    | None => waitForTransactionReceipt txHash
    | Some r => ret r
    end ;;

  emit receipt (PReceipt transactionReceipt) ;;
  resolve transactionReceipt ;;

  n <- listenerCount confirmation ;;
  if 0 <? n then
    watchTransactionForConfirmations transactionReceipt txHash
  else ret tt.

(* ------------------------------------------------------------------- *)
(** *** [sendSignedTransaction] *)

Definition sendSignedTransaction_task (transaction : HexString) : Async unit :=
  emit sending (PSigned transaction) ;;

  txHash <- await SP_broadcast (eth_sendRawTransaction transaction)
                  (rpc_sendRawTransaction env transaction) ;;

  emit sent (PSigned transaction) ;;
  emit transactionHash (PHash txHash) ;;

  transactionReceipt <- await SP_receipt (eth_getTransactionReceipt txHash)
                              (rpc_getTransactionReceipt env txHash 0) ;;

  transactionReceipt <-
    match transactionReceipt with
    | None => waitForTransactionReceipt txHash
    | Some r => ret r
    end ;;

  emit receipt (PReceipt transactionReceipt) ;;
  resolve transactionReceipt ;;

  watchTransactionForConfirmations transactionReceipt txHash.

(* ------------------------------------------------------------------- *)
(** *** The handle and the scheduler *)

(** What a submit call leaves behind when it returns: the handle, and the
    callbacks it queued with [setImmediate]. *)
Record Submission := mkSubmission {
  promiEvent : World;
  immediateQueue : list (Async unit)
}.

(** [new PromiEvent(resolve => { setImmediate(() => { ... }) })]: the
    executor runs at once and only queues the body; [reject] is not
    taken. *)
Definition sendTransaction (transaction : Transaction)
           (options : option SendTransactionOptions) : Submission :=
  let _transaction := formatTransaction env transaction in
  {| promiEvent := newPromiEvent;
     immediateQueue := [sendTransaction_task transaction _transaction options] |}.

Definition sendSignedTransaction (transaction : HexString) : Submission :=
  {| promiEvent := newPromiEvent;
     immediateQueue := [sendSignedTransaction_task transaction] |}.

(** Run the queued callbacks in order.  The promise of each [async] body
    is dropped ([as unknown]): a throw ends that body and nothing else. *)
Fixpoint runQueue (queue : list (Async unit)) (w : World)
  : list (Outcome unit) * World :=
  match queue with
  | [] => ([], w)
  | task :: queue' =>
      let (o, w') := task w in
      let (os, w'') := runQueue queue' w' in
      (o :: os, w'')
  end.

(** The event loop after the submit call: the caller's synchronous code
    runs to completion first, then the next tick runs the queue. *)
Definition eventLoop (s : Submission) : list (Outcome unit) * World :=
  runQueue (immediateQueue s) (on_all (callerAttaches env SP_tick) (promiEvent s)).

End Pipeline.

(* ===================================================================== *)
(** ** Observations on a run *)
(* ===================================================================== *)

(** The world once the event loop has run the submission's callbacks. *)
Definition finalWorld (env : Env) (s : Submission) : World :=
  snd (eventLoop env s).

(** How the queued bodies ended: [Thrown e] is a rejection nobody handles. *)
Definition outcomes (env : Env) (s : Submission) : list (Outcome unit) :=
  fst (eventLoop env s).

Definition actions (w : World) : list Action := map act (log w).

(** The tags of the emissions in a piece of log, in order. *)
Definition emittedTags (l : list Entry) : list Tag :=
  flat_map (fun e => match act e with
                     | AEmit t _ => [t]
                     | _ => []
                     end) l.

(** The deliveries a piece of log stands for: each emission reaches the
    listeners its tag had in the table at that moment. *)
Definition emitted_by (l : list Entry) : list (Listener * Tag * Payload) :=
  flat_map (fun e => match act e with
                     | AEmit t p => map (fun x => (x, t, p)) (registered t (regs e))
                     | _ => []
                     end) l.

(** The stage of the lifecycle an event belongs to. *)
Definition stage (t : Tag) : nat :=
  match t with
  | sending => 0
  | sent => 1
  | transactionHash => 1
  | receipt => 2
  | confirmation => 3
  | error => 4
  end.

(** [w'] continues [w]: the log, the table and the deliveries only grow,
    every new line was stamped with a table that extends the one of [w]
    and satisfies [P], and the handle was at most resolved on the way. *)
Definition Frame (P : Action -> list (Tag * Listener) -> Prop) (w w' : World) : Prop :=
  exists l ex,
    log w' = log w ++ l /\
    listeners w' = listeners w ++ ex /\
    delivered w' = delivered w ++ emitted_by l /\
    (settled w' = settled w
     \/ (settled w = Pending /\ exists r, settled w' = Resolved r)) /\
    Forall (fun e => P (act e) (regs e)
                     /\ exists ex', regs e = listeners w ++ ex') l.

Definition Framed (P : Action -> list (Tag * Listener) -> Prop) {A : Type}
           (c : Async A) : Prop :=
  forall w, Frame P w (snd (c w)).

(** [c] emits events of stages between [lo] and [hi] only, in stage order. *)
Definition Staged (lo hi : nat) {A : Type} (c : Async A) : Prop :=
  forall w, exists l,
    log (snd (c w)) = log w ++ l /\
    StronglySorted le (map stage (emittedTags l)) /\
    Forall (fun t => lo <= stage t <= hi) (emittedTags l).

(** The lines the confirmation watcher writes. *)
Definition watcherAction (a : Action) : Prop :=
  match a with
  | AWatch _ _ => True
  | ACall eth_blockNumber => True
  | AEmit confirmation (PConfirmation _ _) => True
  | AEmit error (PError _) => True
  | _ => False
  end.

(** The transaction that goes to broadcast, or the failure of pricing. *)
Definition pricedRequest (env : Env) (transaction : Transaction)
           (options : option SendTransactionOptions) : Result Transaction :=
  if needsGasPricing transaction options then
    match getTransactionGasPricing env (formatTransaction env transaction) with
    | inr pricing => inr (spread (formatTransaction env transaction) pricing)
    | inl e => inl e
    end
  else inr (formatTransaction env transaction).

(** The receipt of [txHash] is [r], found after [polls] attempts of the
    poller ([0]: the first query already had it). *)
Definition includedAfter (env : Env) (txHash : HexString) (r : ReceiptInfo)
           (polls : nat) : Prop :=
  match polls with
  | O => rpc_getTransactionReceipt env txHash 0 = inr (Some r)
  | S k =>
      k < pollAttempts env /\
      (forall j, j <= k -> rpc_getTransactionReceipt env txHash j = inr None) /\
      rpc_getTransactionReceipt env txHash (S k) = inr (Some r)
  end.

(** Lines of the log that are not emissions. *)
Definition silent (a : Action) (_ : list (Tag * Listener)) : Prop :=
  match a with
  | AEmit _ _ => False
  | _ => True
  end.

(** What a line of the log of [sendTransaction] can be, given the table it
    is stamped with. *)
Definition unsignedStep (env : Env) (transaction : Transaction)
           (options : option SendTransactionOptions)
           (a : Action) (table : list (Tag * Listener)) : Prop :=
  match a with
  | ACall (getTransactionGasPricing_call t) =>
      needsGasPricing transaction options = true
      /\ t = formatTransaction env transaction
  | ACall (eth_sendTransaction t) =>
      pricedRequest env transaction options = inr t
  | ACall (eth_sendRawTransaction _) => False
  | ACall (eth_getTransactionReceipt _) => True
  | ACall eth_blockNumber => registered confirmation table <> []
  | AEmit sending (PTransaction t) =>
      pricedRequest env transaction options = inr t
      /\ registered sending table <> []
  | AEmit sent (PTransaction t) =>
      pricedRequest env transaction options = inr t
      /\ registered sent table <> []
  | AEmit transactionHash (PHash _) => registered transactionHash table <> []
  | AEmit receipt (PReceipt _) => True
  | AEmit confirmation (PConfirmation _ _) => registered confirmation table <> []
  | AEmit error (PError _) => registered confirmation table <> []
  | AEmit _ _ => False
  | AResolve _ => True
  | AWatch _ _ => registered confirmation table <> []
  end.

(** What a line of the log of [sendSignedTransaction] can be. *)
Definition signedStep (transaction : HexString) (a : Action)
           (_ : list (Tag * Listener)) : Prop :=
  match a with
  | ACall (eth_sendRawTransaction raw) => raw = transaction
  | ACall (eth_getTransactionReceipt _) => True
  | ACall eth_blockNumber => True
  | ACall _ => False
  | AEmit sending (PSigned raw) => raw = transaction
  | AEmit sent (PSigned raw) => raw = transaction
  | AEmit transactionHash (PHash _) => True
  | AEmit receipt (PReceipt _) => True
  | AEmit confirmation (PConfirmation _ _) => True
  | AEmit error (PError _) => True
  | AEmit _ _ => False
  | AResolve _ => True
  | AWatch _ _ => True
  end.

(** No constraint on the lines of the log. *)
Definition anyStep (_ : Action) (_ : list (Tag * Listener)) : Prop := True.

(** The specification's condition for entering gas pricing resolution:
    automatic pricing is not disabled, the legacy gas price is unset, and
    the fee-market pair is not completely set. *)
Definition pricingUnresolved (transaction : Transaction)
           (options : option SendTransactionOptions) : Prop :=
  (forall o, options = Some o -> ignoreGasPricing o <> Some true)
  /\ gasPrice transaction = None
  /\ ~ (maxPriorityFeePerGas transaction <> None
        /\ maxFeePerGas transaction <> None).

(** The emissions in a piece of log, with their payloads. *)
Definition emissions (l : list Entry) : list (Tag * Payload) :=
  flat_map (fun e => match act e with
                     | AEmit t p => [(t, p)]
                     | _ => []
                     end) l.

(** The payload of the event of a stage, for the request [request] that
    was broadcast, its hash and its receipt. *)
Definition stagePayload (request : Transaction) (txHash : HexString)
           (r : ReceiptInfo) (t : Tag) : Payload :=
  match t with
  | sending | sent => PTransaction request
  | transactionHash => PHash txHash
  | _ => PReceipt r
  end.

(** The submission of an unsigned request gets as far as the event of
    stage [t]: pricing yields [request]; for the later stages broadcast
    answers [txHash]; for [receipt] the receipt [r] is found after [polls]
    attempts of the poller. *)
Definition reachesStage (env : Env) (transaction : Transaction)
           (options : option SendTransactionOptions)
           (request : Transaction) (txHash : HexString) (r : ReceiptInfo)
           (polls : nat) (t : Tag) : Prop :=
  pricedRequest env transaction options = inr request
  /\ match t with
     | sending => True
     | sent | transactionHash => rpc_sendTransaction env request = inr txHash
     | receipt =>
         rpc_sendTransaction env request = inr txHash
         /\ includedAfter env txHash r polls
     | confirmation | error => False
     end.

(** The handle as the assertions of a run describe it. *)
Definition At (L : list (Tag * Listener)) (D : list (Listener * Tag * Payload))
           (S : Settlement) (E : list (Tag * Payload)) (w : World) : Prop :=
  listeners w = L /\ delivered w = D /\ settled w = S /\ emissions (log w) = E.

(** From a world in [pre], [c] returns [v] in a world in [post]. *)
Definition Steps {A : Type} (c : Async A) (pre : World -> Prop) (v : A)
           (post : World -> Prop) : Prop :=
  forall w, pre w -> exists w', c w = (Returned v, w') /\ post w'.

(** From a world in [pre], [c] passes through a world in [mid], and from
    there on writes lines in [P] only. *)
Definition Passes {A : Type} (c : Async A) (pre mid : World -> Prop)
           (P : Action -> list (Tag * Listener) -> Prop) : Prop :=
  forall w, pre w -> exists w1, mid w1 /\ Frame P w1 (snd (c w)).

(** Lines that are not emissions of [t]. *)
Definition noEmissionOf (t : Tag) (a : Action) (_ : list (Tag * Listener)) : Prop :=
  match a with
  | AEmit t' _ => t' <> t
  | _ => True
  end.

(** The listener table of the handle at the moment the event of a stage is
    emitted: what the caller registered at the suspension points before. *)
Definition tableAtSending (env : Env) (transaction : Transaction)
           (options : option SendTransactionOptions) : list (Tag * Listener) :=
  callerAttaches env SP_tick
  ++ (if needsGasPricing transaction options
      then callerAttaches env SP_pricing else []).

Definition tableAtSent (env : Env) (transaction : Transaction)
           (options : option SendTransactionOptions) : list (Tag * Listener) :=
  tableAtSending env transaction options ++ callerAttaches env SP_broadcast.

Definition tableAtReceipt (env : Env) (transaction : Transaction)
           (options : option SendTransactionOptions) (polls : nat)
  : list (Tag * Listener) :=
  (tableAtSent env transaction options ++ callerAttaches env SP_receipt)
  ++ flat_map (fun j => callerAttaches env (SP_poll j)) (seq 0 polls).

Definition tableAt (env : Env) (transaction : Transaction)
           (options : option SendTransactionOptions) (polls : nat) (t : Tag)
  : list (Tag * Listener) :=
  match t with
  | sending => tableAtSending env transaction options
  | sent | transactionHash => tableAtSent env transaction options
  | _ => tableAtReceipt env transaction options polls
  end.

(** One delivery of the event of stage [t] to each listener of a table. *)
Definition deliveriesOf (request : Transaction) (txHash : HexString)
           (r : ReceiptInfo) (t : Tag) (table : list (Tag * Listener))
  : list (Listener * Tag * Payload) :=
  map (fun x => (x, t, stagePayload request txHash r t)) (registered t table).

(** What a listener receives for a tag from a piece of log: for each
    emission of the tag, the payload once per registration the listener
    had in the table stamped on that line. *)
Definition receivedFrom (l : Listener) (t : Tag) (lines : list Entry)
  : list Payload :=
  flat_map (fun e => match act e with
                     | AEmit t' p =>
                         if Tag_eqb t' t
                         then repeat p (count_occ Nat.eq_dec
                                                  (registered t' (regs e)) l)
                         else []
                     | _ => []
                     end) lines.

(** The payload of the event of a stage on the pre-signed path. *)
Definition signedStagePayload (transaction txHash : HexString)
           (r : ReceiptInfo) (t : Tag) : Payload :=
  match t with
  | sending | sent => PSigned transaction
  | transactionHash => PHash txHash
  | _ => PReceipt r
  end.

(** The submission of pre-signed bytes gets as far as the event of stage
    [t]. *)
Definition signedReachesStage (env : Env) (transaction txHash : HexString)
           (r : ReceiptInfo) (polls : nat) (t : Tag) : Prop :=
  match t with
  | sending => True
  | sent | transactionHash => rpc_sendRawTransaction env transaction = inr txHash
  | receipt =>
      rpc_sendRawTransaction env transaction = inr txHash
      /\ includedAfter env txHash r polls
  | confirmation | error => False
  end.

(** The listener table of the handle when the pre-signed path emits the
    event of a stage. *)
Definition signedTableAt (env : Env) (polls : nat) (t : Tag)
  : list (Tag * Listener) :=
  match t with
  | sending => callerAttaches env SP_tick
  | sent | transactionHash =>
      callerAttaches env SP_tick ++ callerAttaches env SP_broadcast
  | _ =>
      ((callerAttaches env SP_tick ++ callerAttaches env SP_broadcast)
       ++ callerAttaches env SP_receipt)
      ++ flat_map (fun j => callerAttaches env (SP_poll j)) (seq 0 polls)
  end.

(* ===================================================================== *)
(** ** Further observations *)
(* ===================================================================== *)

(** The transaction an action carries, if it carries one. *)
Definition carriedTransaction (a : Action) : option Transaction :=
  match a with
  | AEmit _ (PTransaction t) => Some t
  | ACall (eth_sendTransaction t) => Some t
  | _ => None
  end.

(** The signed bytes an action carries, if it carries some. *)
Definition carriedBytes (a : Action) : option HexString :=
  match a with
  | AEmit _ (PSigned raw) => Some raw
  | ACall (eth_sendRawTransaction raw) => Some raw
  | _ => None
  end.

(** The place of an action in the text of the two bodies. *)
Definition rank (a : Action) : nat :=
  match a with
  | ACall (getTransactionGasPricing_call _) => 0
  | AEmit sending _ => 1
  | ACall (eth_sendTransaction _) => 2
  | ACall (eth_sendRawTransaction _) => 2
  | AEmit sent _ => 3
  | AEmit transactionHash _ => 4
  | ACall (eth_getTransactionReceipt _) => 5
  | AEmit receipt _ => 6
  | AResolve _ => 7
  | AWatch _ _ => 8
  | ACall eth_blockNumber => 9
  | AEmit confirmation _ => 9
  | AEmit error _ => 10
  end.

(** The actions a run may repeat: receipt queries, and the block-height
    checks and confirmations of the watcher. *)
Definition repeatable (a : Action) : bool :=
  match a with
  | ACall (eth_getTransactionReceipt _) => true
  | ACall eth_blockNumber => true
  | AEmit confirmation _ => true
  | _ => false
  end.

(** [a] may come before [b] in a log: it stands earlier in the body, or
    both are repetitions of the same step. *)
Definition precedes (a b : Action) : Prop :=
  rank a < rank b \/ (rank a = rank b /\ repeatable a = true).

Definition isBroadcast (a : Action) : bool :=
  match a with
  | ACall (eth_sendTransaction _) => true
  | ACall (eth_sendRawTransaction _) => true
  | _ => false
  end.

(** [c] writes lines of ranks in [lo, hi) only, in the order of [precedes]. *)
Definition Ordered (lo hi : nat) {A : Type} (c : Async A) : Prop :=
  forall w, exists l,
    log (snd (c w)) = log w ++ l /\
    StronglySorted precedes (map act l) /\
    Forall (fun a => lo <= rank a < hi) (map act l).

(** Lines of rank [n] that may repeat. *)
Definition repeatsAt (n : nat) (a : Action) (_ : list (Tag * Listener)) : Prop :=
  rank a = n /\ repeatable a = true.

(** No line at all. *)
Definition noStep (_ : Action) (_ : list (Tag * Listener)) : Prop := False.

(** The hash an action carries or asks about, if any. *)
Definition carriedHash (a : Action) : option HexString :=
  match a with
  | AEmit transactionHash (PHash h) => Some h
  | ACall (eth_getTransactionReceipt h) => Some h
  | AWatch _ h => Some h
  | _ => None
  end.

(** The receipt an action carries, if any. *)
Definition carriedReceipt (a : Action) : option ReceiptInfo :=
  match a with
  | AEmit receipt (PReceipt r) => Some r
  | AResolve r => Some r
  | AWatch r _ => Some r
  | AEmit confirmation (PConfirmation _ r) => Some r
  | _ => None
  end.

(** Where the hashes and receipts in the lines of [sendTransaction] come
    from: the hash is the node's answer to the broadcast of the priced
    request, the receipt is the one the node had for that hash; and no
    event but [sending] is emitted unless the node accepted the
    broadcast. *)
Definition provenStep (env : Env) (transaction : Transaction)
           (options : option SendTransactionOptions)
           (a : Action) (_ : list (Tag * Listener)) : Prop :=
  (forall h, carriedHash a = Some h ->
             exists t, pricedRequest env transaction options = inr t
                       /\ rpc_sendTransaction env t = inr h)
  /\ (forall r, carriedReceipt a = Some r ->
                exists t h polls,
                  reachesStage env transaction options t h r polls receipt)
  /\ (forall t p, a = AEmit t p -> t <> sending ->
                  exists request h,
                    pricedRequest env transaction options = inr request
                    /\ rpc_sendTransaction env request = inr h).

(** [c] relates every world to the one it leaves. *)
Definition Evolves (R : World -> World -> Prop) {A : Type} (c : Async A) : Prop :=
  forall w, R w (snd (c w)).

(** The handle is settled by a [resolve] line, or not at all. *)
Definition Resolving (w w' : World) : Prop :=
  exists l,
    log w' = log w ++ l /\
    (settled w' = settled w
     \/ exists r, settled w' = Resolved r /\ In (AResolve r) (map act l)).

(** The calls a world has seen, in order. *)
Definition calls (w : World) : list Call :=
  flat_map (fun e => match act e with
                     | ACall c => [c]
                     | _ => []
                     end) (log w).

(** The caller registers no listener at all. *)
Definition unobserved (env : Env) : Prop :=
  forall p, callerAttaches env p = [].

(** On a handle without listeners and deliveries that has seen the calls
    [C0], [c] returns a value in [Q] and leaves the handle without
    listeners and deliveries, having seen [C1]. *)
Definition Talks {A : Type} (c : Async A) (C0 C1 : list Call) (Q : A -> Prop)
  : Prop :=
  forall w,
    listeners w = [] -> delivered w = [] -> calls w = C0 ->
    exists v w',
      c w = (Returned v, w') /\ Q v
      /\ listeners w' = [] /\ delivered w' = [] /\ calls w' = C1.

(** Unless the handle was rejected before, a return of [c] leaves it
    resolved. *)
Definition ReturnsResolved {A : Type} (c : Async A) : Prop :=
  forall w a,
    (forall e, settled w <> Rejected e) ->
    fst (c w) = Returned a ->
    exists r, settled (snd (c w)) = Resolved r.

(** The calls of a submission of an unsigned request that reaches
    inclusion after [polls] attempts of the poller. *)
Definition conversation (env : Env) (transaction : Transaction)
           (options : option SendTransactionOptions)
           (request : Transaction) (txHash : HexString) (polls : nat)
  : list Call :=
  (if needsGasPricing transaction options
   then [getTransactionGasPricing_call (formatTransaction env transaction)]
   else [])
  ++ [eth_sendTransaction request]
  ++ repeat (eth_getTransactionReceipt txHash) (S polls).

(** The payloads of the [error] events a world has seen. *)
Definition errorEvents (w : World) : list Payload :=
  flat_map (fun e => match act e with
                     | AEmit error p => [p]
                     | _ => []
                     end) (log w).

(** [c] always returns. *)
Definition Returning {A : Type} (c : Async A) : Prop :=
  forall w, exists a, fst (c w) = Returned a.

(** [c] neither settles the handle nor emits [error]. *)
Definition Unsurfacing {A : Type} (c : Async A) : Prop :=
  forall w,
    settled (snd (c w)) = settled w
    /\ errorEvents (snd (c w)) = errorEvents w.

(** A throw of [c] has settled nothing and emitted no [error]. *)
Definition ThrowsUnsurfaced {A : Type} (c : Async A) : Prop :=
  forall w e,
    fst (c w) = Thrown e ->
    settled (snd (c w)) = settled w
    /\ errorEvents (snd (c w)) = errorEvents w.

(* ===================================================================== *)
(** ** Concrete submissions *)
(* ===================================================================== *)

(** The request [{ to: "0xabc", value: 1 }]. *)
Definition transferRequest : Transaction :=
  {| from := None; to := Some "0xabc"%string; value := Some "0x1"%string;
     data := None; gas := None; gasPrice := None;
     maxPriorityFeePerGas := None; maxFeePerGas := None; nonce := None |}.

Definition pricedTransfer : Transaction :=
  {| from := None; to := Some "0xabc"%string; value := Some "0x1"%string;
     data := None; gas := None; gasPrice := Some "0x1"%string;
     maxPriorityFeePerGas := None; maxFeePerGas := None; nonce := None |}.

Definition signedTransfer : HexString := "0xf86b"%string.

Definition deadHash : HexString := "0xdead"%string.

Definition intrinsicGasTooLow : Error :=
  TransportError "Returned error: intrinsic gas too low".

Definition gasPriceUnavailable : Error := PricingError "eth_gasPrice failed".

Definition subscriptionLost : Error := TransportError "subscription lost".

Definition minedReceipt : ReceiptInfo :=
  {| blockHash := "0xb10c"%string; blockNumber := 10; transactionIndex := 0;
     status := true; gasUsed := 21000; logs := [] |}.

(** A node that prices with the legacy gas price [0x1], accepts the
    broadcast with hash [0xdead], has no receipt at the first two queries
    and the receipt of block 10 at the third; the caller registers
    nothing. *)
Definition quietEnv : Env :=
  {| formatTransaction := fun t => t;
     getTransactionGasPricing :=
       fun _ => inr (Some {| p_gasPrice := Some (Some "0x1"%string);
                             p_maxPriorityFeePerGas := None;
                             p_maxFeePerGas := None |});
     rpc_sendTransaction := fun _ => inr deadHash;
     rpc_sendRawTransaction := fun _ => inr deadHash;
     rpc_getTransactionReceipt :=
       fun _ n => if n <? 2 then inr None else inr (Some minedReceipt);
     pollAttempts := 5;
     blockHeads := [inr 11; inr 11; inr 12]%Z;
     callerAttaches := fun _ => [] |}.

(** The same node; listener [1] is registered for every tag right after
    the submit call, listener [2] for [sending] and [receipt] only once the
    broadcast is under way. *)
Definition listeningEnv : Env :=
  {| formatTransaction := formatTransaction quietEnv;
     getTransactionGasPricing := getTransactionGasPricing quietEnv;
     rpc_sendTransaction := rpc_sendTransaction quietEnv;
     rpc_sendRawTransaction := rpc_sendRawTransaction quietEnv;
     rpc_getTransactionReceipt := rpc_getTransactionReceipt quietEnv;
     pollAttempts := pollAttempts quietEnv;
     blockHeads := blockHeads quietEnv;
     callerAttaches :=
       fun p => match p with
                | SP_tick => [(sending, 1); (sent, 1); (transactionHash, 1);
                              (receipt, 1); (confirmation, 1); (error, 1)]
                | SP_broadcast => [(sending, 2); (receipt, 2)]
                | _ => []
                end |}.

(** The node rejects the broadcast. *)
Definition rejectingEnv : Env :=
  {| formatTransaction := formatTransaction listeningEnv;
     getTransactionGasPricing := getTransactionGasPricing listeningEnv;
     rpc_sendTransaction := fun _ => inl intrinsicGasTooLow;
     rpc_sendRawTransaction := fun _ => inl intrinsicGasTooLow;
     rpc_getTransactionReceipt := rpc_getTransactionReceipt listeningEnv;
     pollAttempts := pollAttempts listeningEnv;
     blockHeads := blockHeads listeningEnv;
     callerAttaches := callerAttaches listeningEnv |}.

(** The pricing query fails. *)
Definition unpricedEnv : Env :=
  {| formatTransaction := formatTransaction listeningEnv;
     getTransactionGasPricing := fun _ => inl gasPriceUnavailable;
     rpc_sendTransaction := rpc_sendTransaction listeningEnv;
     rpc_sendRawTransaction := rpc_sendRawTransaction listeningEnv;
     rpc_getTransactionReceipt := rpc_getTransactionReceipt listeningEnv;
     pollAttempts := pollAttempts listeningEnv;
     blockHeads := blockHeads listeningEnv;
     callerAttaches := callerAttaches listeningEnv |}.

(** The receipt never shows up before the deadline of three attempts. *)
Definition stalledEnv : Env :=
  {| formatTransaction := formatTransaction listeningEnv;
     getTransactionGasPricing := getTransactionGasPricing listeningEnv;
     rpc_sendTransaction := rpc_sendTransaction listeningEnv;
     rpc_sendRawTransaction := rpc_sendRawTransaction listeningEnv;
     rpc_getTransactionReceipt := fun _ _ => inr None;
     pollAttempts := 3;
     blockHeads := blockHeads listeningEnv;
     callerAttaches := callerAttaches listeningEnv |}.

(** The node of [listeningEnv]; the watcher sees block 11 at its first
    check and fails at the second. *)
Definition lostWatchEnv : Env :=
  {| formatTransaction := formatTransaction listeningEnv;
     getTransactionGasPricing := getTransactionGasPricing listeningEnv;
     rpc_sendTransaction := rpc_sendTransaction listeningEnv;
     rpc_sendRawTransaction := rpc_sendRawTransaction listeningEnv;
     rpc_getTransactionReceipt := rpc_getTransactionReceipt listeningEnv;
     pollAttempts := pollAttempts listeningEnv;
     blockHeads := [inr 11%Z; inl subscriptionLost];
     callerAttaches := callerAttaches listeningEnv |}.

(* ===================================================================== *)
(** ** Reasoning rules *)
(* ===================================================================== *)

Lemma emitted_by_app (l1 l2 : list Entry) :
  emitted_by (l1 ++ l2) = emitted_by l1 ++ emitted_by l2.
Proof. unfold emitted_by. apply flat_map_app. Qed.

Lemma emittedTags_app (l1 l2 : list Entry) :
  emittedTags (l1 ++ l2) = emittedTags l1 ++ emittedTags l2.
Proof. unfold emittedTags. apply flat_map_app. Qed.

Lemma run_bind {A B : Type} (c : Async A) (k : A -> Async B) (w : World) :
  bind c k w = match c w with
               | (Returned a, w') => k a w'
               | (Thrown e, w') => (Thrown e, w')
               end.
Proof. reflexivity. Qed.

Section FrameRules.

Variable P : Action -> list (Tag * Listener) -> Prop.

Lemma Frame_refl (w : World) : Frame P w w.
Proof.
  exists [], []. cbn. rewrite ?app_nil_r.
  repeat split; auto.
Qed.

Lemma settled_trans (s1 s2 s3 : Settlement) :
  (s2 = s1 \/ (s1 = Pending /\ exists r, s2 = Resolved r)) ->
  (s3 = s2 \/ (s2 = Pending /\ exists r, s3 = Resolved r)) ->
  s3 = s1 \/ (s1 = Pending /\ exists r, s3 = Resolved r).
Proof.
  intros [H12|[H1 [r2 H2]]] [H23|[H2' [r3 H3]]].
  - left. congruence.
  - right. split; [congruence|]. now exists r3.
  - right. split; [exact H1|]. exists r2. congruence.
  - congruence.
Qed.

Lemma Frame_trans (w1 w2 w3 : World) :
  Frame P w1 w2 -> Frame P w2 w3 -> Frame P w1 w3.
Proof.
  intros (l1 & ex1 & Hl1 & Hx1 & Hd1 & Hs1 & Hf1)
         (l2 & ex2 & Hl2 & Hx2 & Hd2 & Hs2 & Hf2).
  exists (l1 ++ l2), (ex1 ++ ex2).
  rewrite Hl2, Hl1, Hx2, Hx1, Hd2, Hd1, emitted_by_app, <- !app_assoc.
  split; [reflexivity|]. split; [reflexivity|]. split; [reflexivity|].
  split; [eapply settled_trans; eassumption|].
  apply Forall_app; split; [exact Hf1|].
  eapply Forall_impl; [|exact Hf2].
  intros e [Hp [ex' He]]. split; [exact Hp|].
  exists (ex1 ++ ex'). rewrite He, Hx1, <- app_assoc. reflexivity.
Qed.

(** One new line, nothing else touched. *)
Lemma Frame_line (w w' : World) (a : Action) :
  log w' = log w ++ [mkEntry a (listeners w)] ->
  listeners w' = listeners w ->
  delivered w' = delivered w ++ emitted_by [mkEntry a (listeners w)] ->
  (settled w' = settled w
   \/ (settled w = Pending /\ exists r, settled w' = Resolved r)) ->
  P a (listeners w) ->
  Frame P w w'.
Proof.
  intros Hl Hx Hd Hs Hp.
  exists [mkEntry a (listeners w)], [].
  rewrite app_nil_r.
  split; [exact Hl|]. split; [exact Hx|]. split; [exact Hd|].
  split; [exact Hs|].
  constructor; [|constructor]. cbn. split; [exact Hp|].
  exists []. now rewrite app_nil_r.
Qed.

Lemma Framed_ret {A : Type} (a : A) : Framed P (ret a).
Proof. intros w. apply Frame_refl. Qed.

Lemma Framed_throw {A : Type} (e : Error) : Framed P (@throw A e).
Proof. intros w. apply Frame_refl. Qed.

Lemma Framed_bind {A B : Type} (c : Async A) (k : A -> Async B) :
  Framed P c -> (forall a, Framed P (k a)) -> Framed P (bind c k).
Proof.
  intros Hc Hk w. rewrite run_bind.
  specialize (Hc w). destruct (c w) as [[a|e] w1]; cbn in Hc.
  - eapply Frame_trans; [exact Hc | apply Hk].
  - exact Hc.
Qed.

Lemma Framed_record (a : Action) :
  (forall table, P a table) ->
  (forall t p, a <> AEmit t p) ->
  Framed P (record a).
Proof.
  intros Hp Hne w. apply Frame_line with (a := a); cbn; auto.
  destruct a; try now rewrite app_nil_r.
  exfalso. eapply Hne. reflexivity.
Qed.

Lemma Framed_emit_at (t : Tag) (p : Payload) (w : World) :
  P (AEmit t p) (listeners w) -> Frame P w (snd (emit t p w)).
Proof.
  intros Hp. apply Frame_line with (a := AEmit t p); cbn; auto.
  now rewrite app_nil_r.
Qed.

Lemma Framed_emit (t : Tag) (p : Payload) :
  (forall table, P (AEmit t p) table) -> Framed P (emit t p).
Proof. intros Hp w. apply Framed_emit_at, Hp. Qed.

Lemma Framed_resolve (r : ReceiptInfo) :
  (forall table, P (AResolve r) table) -> Framed P (resolve r).
Proof.
  intros Hp w. apply Frame_line with (a := AResolve r); cbn; auto.
  - now rewrite app_nil_r.
  - destruct (settled w); auto. right. split; [reflexivity|]. now exists r.
Qed.

Lemma Framed_listenerCount (t : Tag) : Framed P (listenerCount t).
Proof. intros w. apply Frame_refl. Qed.

Lemma Framed_suspend (env : Env) (p : SuspensionPoint) :
  Framed P (suspend env p).
Proof.
  intros w. exists [], (callerAttaches env p). cbn.
  rewrite !app_nil_r. repeat split; auto.
Qed.

Lemma Framed_await {A : Type} (env : Env) (p : SuspensionPoint) (c : Call)
      (answer : Result A) :
  (forall table, P (ACall c) table) -> Framed P (await env p c answer).
Proof.
  intros Hp. unfold await.
  apply Framed_bind; [apply Framed_record; [exact Hp | discriminate]|].
  intros _. apply Framed_bind; [apply Framed_suspend|].
  intros _. destruct answer; [apply Framed_throw | apply Framed_ret].
Qed.

(** The idiom [if (listenerCount(t) > 0) emit(t, p)]. *)
Lemma Framed_guarded_emit {B : Type} (t : Tag) (p : Payload) (k : Async B) :
  (forall table, registered t table <> [] -> P (AEmit t p) table) ->
  Framed P k ->
  Framed P (n <- listenerCount t ;;
            (if 0 <? n then emit t p else ret tt) ;;
            k).
Proof.
  intros Hp Hk w. rewrite run_bind. cbn [listenerCount].
  rewrite run_bind.
  destruct (0 <? length (registered t (listeners w))) eqn:Hn.
  - eapply Frame_trans; [apply Framed_emit_at | apply Hk].
    apply Hp. intros Hnil. rewrite Hnil in Hn. discriminate.
  - cbn. apply Hk.
Qed.

Lemma Framed_poller (env : Env) (txHash : HexString) (budget attempt : nat) :
  (forall table, P (ACall (eth_getTransactionReceipt txHash)) table) ->
  Framed P (waitForTransactionReceipt_from env budget attempt txHash).
Proof.
  intros Hp. revert attempt.
  induction budget as [|budget IH]; intros attempt; cbn [waitForTransactionReceipt_from].
  - apply Framed_throw.
  - apply Framed_bind; [apply Framed_await, Hp|].
    intros [r|]; [apply Framed_ret | apply IH].
Qed.

Lemma Framed_watch_heads (env : Env) (r : ReceiptInfo)
      (heads : list (Result Z)) (index : nat) (count : Z) :
  (forall table, P (ACall eth_blockNumber) table) ->
  (forall c table, P (AEmit confirmation (PConfirmation c r)) table) ->
  (forall e table, P (AEmit error (PError e)) table) ->
  Framed P (watch_heads env r heads index count).
Proof.
  intros Hcall Hconf Herr. revert index count.
  induction heads as [|[e|h] heads IH]; intros index count; cbn [watch_heads].
  - apply Framed_ret.
  - apply Framed_bind; [apply Framed_record; [exact Hcall | discriminate]|].
    intros _. apply Framed_bind; [apply Framed_suspend|]. intros _.
    apply Framed_emit, Herr.
  - apply Framed_bind; [apply Framed_record; [exact Hcall | discriminate]|].
    intros _. apply Framed_bind; [apply Framed_suspend|]. intros _.
    destruct (count <? h - blockNumber r)%Z.
    + apply Framed_bind; [apply Framed_emit, Hconf|]. intros _. apply IH.
    + apply IH.
Qed.

Lemma Framed_watcher (env : Env) (r : ReceiptInfo) (txHash : HexString) :
  (forall a table, watcherAction a -> P a table) ->
  Framed P (watchTransactionForConfirmations env r txHash).
Proof.
  intros Hp. unfold watchTransactionForConfirmations.
  apply Framed_bind.
  - apply Framed_record; [|discriminate]. intros table. now apply Hp.
  - intros _. apply Framed_watch_heads; intros; now apply Hp.
Qed.

End FrameRules.

Lemma Frame_weaken (P Q : Action -> list (Tag * Listener) -> Prop) (w w' : World) :
  (forall e, (exists ex', regs e = listeners w ++ ex') ->
             P (act e) (regs e) -> Q (act e) (regs e)) ->
  Frame P w w' -> Frame Q w w'.
Proof.
  intros Hpq (l & ex & Hl & Hx & Hd & Hs & Hf).
  exists l, ex. repeat split; auto.
  eapply Forall_impl; [|exact Hf].
  intros e [Hp He]. split; [apply Hpq|]; assumption.
Qed.

(** The idiom [if (listenerCount('confirmation') > 0) watch(...)]: every
    line of the watcher is stamped with a table that has a [confirmation]
    listener. *)
Lemma Framed_guarded_watch (P : Action -> list (Tag * Listener) -> Prop)
      (env : Env) (r : ReceiptInfo) (txHash : HexString) :
  (forall a table, watcherAction a -> registered confirmation table <> [] ->
                   P a table) ->
  Framed P (n <- listenerCount confirmation ;;
            if 0 <? n then watchTransactionForConfirmations env r txHash
            else ret tt).
Proof.
  intros Hp w. rewrite run_bind. cbn [listenerCount].
  destruct (0 <? length (registered confirmation (listeners w))) eqn:Hn.
  - eapply Frame_weaken;
      [|apply (Framed_watcher (fun a _ => watcherAction a)); auto].
    intros e [ex' He] Ha. apply Hp; [exact Ha|].
    rewrite He. unfold registered. rewrite filter_app, map_app.
    intros Hnil. apply app_eq_nil in Hnil. destruct Hnil as [Hnil _].
    unfold registered in Hn. rewrite Hnil in Hn. discriminate.
  - apply Frame_refl.
Qed.

(* --------------------------------------------------------------------- *)
(** *** Stage order *)

Lemma silent_emittedTags (l : list Entry) :
  Forall (fun e => silent (act e) (regs e)) l -> emittedTags l = [].
Proof.
  induction 1 as [|e l He _ IH]; [reflexivity|].
  unfold emittedTags in *. cbn. rewrite IH.
  destruct (act e); [reflexivity | destruct He | reflexivity ..].
Qed.

Lemma sorted_between (mid : nat) (l1 l2 : list nat) :
  StronglySorted le l1 -> Forall (fun n => n <= mid) l1 ->
  StronglySorted le l2 -> Forall (fun n => mid <= n) l2 ->
  StronglySorted le (l1 ++ l2).
Proof.
  intros S1 F1 S2 F2. induction S1 as [|a l1 S1 IH Ha]; cbn; [exact S2|].
  inversion F1 as [|? ? Hmid F1']; subst.
  constructor; [apply IH, F1'|].
  apply Forall_app; split; [exact Ha|].
  eapply Forall_impl; [|exact F2]. cbn. intros b Hb. lia.
Qed.

Lemma Staged_silent {A : Type} (lo hi : nat) (c : Async A) :
  Framed silent c -> Staged lo hi c.
Proof.
  intros Hc w. destruct (Hc w) as (l & ex & Hl & _ & _ & _ & Hf).
  assert (He : emittedTags l = []).
  { apply silent_emittedTags. eapply Forall_impl; [|exact Hf]. now intros e [He _]. }
  exists l. rewrite He. repeat split; auto; constructor.
Qed.

Lemma Staged_weaken {A : Type} (lo hi lo' hi' : nat) (c : Async A) :
  lo' <= lo -> hi <= hi' -> Staged lo hi c -> Staged lo' hi' c.
Proof.
  intros Hlo Hhi Hc w. destruct (Hc w) as (l & Hl & Hs & Hb).
  exists l. repeat split; auto.
  eapply Forall_impl; [|exact Hb]. cbn. intros t Ht. lia.
Qed.

Lemma Staged_bind {A B : Type} (lo mid hi : nat) (c : Async A) (k : A -> Async B) :
  lo <= mid <= hi ->
  Staged lo mid c -> (forall a, Staged mid hi (k a)) ->
  Staged lo hi (bind c k).
Proof.
  intros Hm Hc Hk w. rewrite run_bind.
  destruct (Hc w) as (l1 & Hl1 & Hs1 & Hb1).
  destruct (c w) as [[a|e] w1]; cbn in Hl1.
  - destruct (Hk a w1) as (l2 & Hl2 & Hs2 & Hb2).
    exists (l1 ++ l2). rewrite Hl2, Hl1, <- app_assoc, emittedTags_app, map_app.
    split; [reflexivity|]. split.
    + apply sorted_between with (mid := mid); auto.
      * rewrite Forall_map. eapply Forall_impl; [|exact Hb1]. cbn. intros; lia.
      * rewrite Forall_map. eapply Forall_impl; [|exact Hb2]. cbn. intros; lia.
    + apply Forall_app; split.
      * eapply Forall_impl; [|exact Hb1]. cbn. intros; lia.
      * eapply Forall_impl; [|exact Hb2]. cbn. intros; lia.
  - exists l1. cbn. repeat split; auto.
    eapply Forall_impl; [|exact Hb1]. cbn. intros; lia.
Qed.

Lemma Staged_emit (t : Tag) (p : Payload) :
  Staged (stage t) (stage t) (emit t p).
Proof.
  intros w. exists [mkEntry (AEmit t p) (listeners w)]. cbn.
  repeat split; repeat constructor.
Qed.

(** A silent step, then the rest. *)
Lemma Staged_after {A B : Type} (lo hi : nat) (c : Async A) (k : A -> Async B) :
  Framed silent c -> (forall a, Staged lo hi (k a)) -> Staged lo hi (bind c k).
Proof.
  intros Hc Hk w. rewrite run_bind.
  destruct (Hc w) as (l1 & ex & Hl1 & _ & _ & _ & Hf).
  assert (He : emittedTags l1 = []).
  { apply silent_emittedTags. eapply Forall_impl; [|exact Hf]. now intros e [He _]. }
  destruct (c w) as [[a|e] w1]; cbn in Hl1.
  - destruct (Hk a w1) as (l2 & Hl2 & Hs2 & Hb2).
    exists (l1 ++ l2). rewrite Hl2, Hl1, <- app_assoc, emittedTags_app, He.
    repeat split; auto.
  - exists l1. cbn. rewrite He. repeat split; auto; constructor.
Qed.

(** An emission, guarded by a listener count or not, then the rest. *)
Lemma Staged_emit_then {B : Type} (lo hi : nat) (b : bool) (t : Tag)
      (p : Payload) (k : Async B) :
  lo <= stage t <= hi ->
  Staged (stage t) hi k ->
  Staged lo hi ((if b then emit t p else ret tt) ;; k).
Proof.
  intros Ht Hk. apply Staged_bind with (mid := stage t); [exact Ht| |now intros _].
  destruct b.
  - eapply Staged_weaken; [| |apply Staged_emit]; lia.
  - apply Staged_silent, Framed_ret.
Qed.

Lemma Staged_watch_heads (env : Env) (r : ReceiptInfo)
      (heads : list (Result Z)) (index : nat) (count : Z) :
  Staged 3 4 (watch_heads env r heads index count).
Proof.
  revert index count.
  induction heads as [|[e|h] heads IH]; intros index count; cbn [watch_heads].
  - apply Staged_silent, Framed_ret.
  - apply Staged_after; [apply Framed_record; [exact (fun _ => I) | discriminate]|].
    intros _. apply Staged_after; [apply Framed_suspend|]. intros _.
    eapply Staged_weaken; [| |apply (Staged_emit error)]; cbn; lia.
  - apply Staged_after; [apply Framed_record; [exact (fun _ => I) | discriminate]|].
    intros _. apply Staged_after; [apply Framed_suspend|]. intros _.
    destruct (count <? h - blockNumber r)%Z.
    + apply Staged_bind with (mid := 3); [lia| |].
      * eapply Staged_weaken; [| |apply (Staged_emit confirmation)]; cbn; lia.
      * intros _. apply IH.
    + apply IH.
Qed.

Lemma Staged_watcher (env : Env) (r : ReceiptInfo) (txHash : HexString) :
  Staged 3 4 (watchTransactionForConfirmations env r txHash).
Proof.
  unfold watchTransactionForConfirmations.
  apply Staged_after; [apply Framed_record; [exact (fun _ => I) | discriminate]|].
  intros _. apply Staged_watch_heads.
Qed.

Lemma silent_receipt_lookup (env : Env) (txHash : HexString)
      (first : option ReceiptInfo) :
  Framed silent
         match first with
         | None => waitForTransactionReceipt env txHash
         | Some r => ret r
         end.
Proof.
  destruct first; [apply Framed_ret|].
  apply Framed_poller. exact (fun _ => I).
Qed.

Lemma sendTransaction_task_staged (env : Env) (transaction t0 : Transaction)
      (options : option SendTransactionOptions) :
  Staged 0 4 (sendTransaction_task env transaction t0 options).
Proof.
  unfold sendTransaction_task.
  apply Staged_after.
  { destruct (needsGasPricing transaction options); [|apply Framed_ret].
    apply Framed_bind; [apply Framed_await; exact (fun _ => I)|].
    intros p. apply Framed_ret. }
  intros t1.
  apply Staged_after; [apply Framed_listenerCount|]. intros n1.
  apply Staged_emit_then; [cbn; lia|]. cbn [stage].
  apply Staged_after; [apply Framed_await; exact (fun _ => I)|]. intros h.
  apply Staged_after; [apply Framed_listenerCount|]. intros n2.
  apply Staged_emit_then; [cbn; lia|]. cbn [stage].
  apply Staged_after; [apply Framed_listenerCount|]. intros n3.
  apply Staged_emit_then; [cbn; lia|]. cbn [stage].
  apply Staged_after; [apply Framed_await; exact (fun _ => I)|]. intros first.
  apply Staged_after; [apply silent_receipt_lookup|]. intros r.
  apply (Staged_emit_then 1 4 true); [cbn; lia|]. cbn [stage].
  apply Staged_after; [apply Framed_resolve; exact (fun _ => I)|]. intros _.
  apply Staged_after; [apply Framed_listenerCount|]. intros n4.
  destruct (0 <? n4).
  - eapply Staged_weaken; [| |apply Staged_watcher]; lia.
  - apply Staged_silent, Framed_ret.
Qed.

Lemma sendSignedTransaction_task_staged (env : Env) (transaction : HexString) :
  Staged 0 4 (sendSignedTransaction_task env transaction).
Proof.
  unfold sendSignedTransaction_task.
  apply (Staged_emit_then 0 4 true); [cbn; lia|]. cbn [stage].
  apply Staged_after; [apply Framed_await; exact (fun _ => I)|]. intros h.
  apply (Staged_emit_then 0 4 true); [cbn; lia|]. cbn [stage].
  apply (Staged_emit_then 1 4 true); [cbn; lia|]. cbn [stage].
  apply Staged_after; [apply Framed_await; exact (fun _ => I)|]. intros first.
  apply Staged_after; [apply silent_receipt_lookup|]. intros r.
  apply (Staged_emit_then 1 4 true); [cbn; lia|]. cbn [stage].
  apply Staged_after; [apply Framed_resolve; exact (fun _ => I)|]. intros _.
  eapply Staged_weaken; [| |apply Staged_watcher]; lia.
Qed.

(** The event loop runs the single queued body on the handle as the
    caller's synchronous code left it. *)
Lemma eventLoop_single (env : Env) (w0 : World) (task : Async unit) :
  eventLoop env {| promiEvent := w0; immediateQueue := [task] |}
  = ([fst (task (on_all (callerAttaches env SP_tick) w0))],
     snd (task (on_all (callerAttaches env SP_tick) w0))).
Proof.
  unfold eventLoop. cbn.
  destruct (task (on_all (callerAttaches env SP_tick) w0)). reflexivity.
Qed.

(** C4.  Within one submission, on either path, the events are emitted in
    stage order: along the log the stage of the emitted events never
    decreases, so no [sending] comes after a [sent] or a
    [transactionHash], none of these after a [receipt], and no [receipt]
    after a [confirmation]. *)
Theorem lifecycle_events_in_stage_order
        (env : Env) (transaction : Transaction)
        (options : option SendTransactionOptions) (signed : HexString) :
  StronglySorted le
    (map stage (emittedTags
       (log (finalWorld env (sendTransaction env transaction options)))))
  /\ StronglySorted le
    (map stage (emittedTags
       (log (finalWorld env (sendSignedTransaction env signed))))).
Proof.
  unfold finalWorld, sendTransaction, sendSignedTransaction.
  rewrite !eventLoop_single. cbn [snd]. split.
  - destruct (sendTransaction_task_staged env transaction
                (formatTransaction env transaction) options
                (on_all (callerAttaches env SP_tick) newPromiEvent))
      as (l & Hl & Hs & _).
    rewrite Hl. exact Hs.
  - destruct (sendSignedTransaction_task_staged env signed
                (on_all (callerAttaches env SP_tick) newPromiEvent))
      as (l & Hl & Hs & _).
    rewrite Hl. exact Hs.
Qed.

(* --------------------------------------------------------------------- *)
(** *** The lines a submission can write *)

Lemma await_returns {A : Type} (env : Env) (p : SuspensionPoint) (c : Call)
      (answer : Result A) (w w' : World) (a : A) :
  await env p c answer w = (Returned a, w') -> answer = inr a.
Proof.
  unfold await. destruct answer as [e|a']; cbn; intros H; inversion H.
  reflexivity.
Qed.

Lemma Framed_bind_returned {A B : Type}
      (P : Action -> list (Tag * Listener) -> Prop)
      (c : Async A) (k : A -> Async B) :
  Framed P c ->
  (forall a, (exists w w', c w = (Returned a, w')) -> Framed P (k a)) ->
  Framed P (bind c k).
Proof.
  intros Hc Hk w. rewrite run_bind. specialize (Hc w).
  destruct (c w) as [[a|e] w1] eqn:E; cbn in Hc.
  - eapply Frame_trans; [exact Hc|]. apply Hk. now exists w, w1.
  - exact Hc.
Qed.

Lemma Framed_await_then {A B : Type}
      (P : Action -> list (Tag * Listener) -> Prop) (env : Env)
      (p : SuspensionPoint) (c : Call) (answer : Result A) (k : A -> Async B) :
  (forall table, P (ACall c) table) ->
  (forall a, answer = inr a -> Framed P (k a)) ->
  Framed P (bind (await env p c answer) k).
Proof.
  intros Hp Hk. apply Framed_bind_returned; [apply Framed_await, Hp|].
  intros a (w & w' & E). apply Hk. eapply await_returns, E.
Qed.

Lemma Framed_receipt_lookup (P : Action -> list (Tag * Listener) -> Prop)
      (env : Env) (txHash : HexString) (first : option ReceiptInfo) :
  (forall table, P (ACall (eth_getTransactionReceipt txHash)) table) ->
  Framed P
         match first with
         | None => waitForTransactionReceipt env txHash
         | Some r => ret r
         end.
Proof.
  intros Hp. destruct first; [apply Framed_ret|]. apply Framed_poller, Hp.
Qed.

Ltac framed_side :=
  intros; unfold anyStep; cbn;
  try tauto; try discriminate;
  try match goal with
      | a : Action |- _ =>
          destruct a as [[] | [] [] | |]; cbn in *; first [tauto | discriminate]
      end.

Ltac framed :=
  repeat first
         [ apply Framed_ret
         | apply Framed_throw
         | apply Framed_guarded_emit; [framed_side|]
         | apply Framed_guarded_watch; framed_side
         | apply Framed_await_then; [framed_side | intros ? ?]
         | apply Framed_receipt_lookup; framed_side
         | apply Framed_emit; framed_side
         | apply Framed_resolve; framed_side
         | apply Framed_watcher; framed_side
         | apply Framed_listenerCount
         | apply Framed_bind; [|intros ?] ].

(** The gas pricing block returns the request that [pricedRequest] computes. *)
Lemma pricing_block_returns (env : Env) (transaction : Transaction)
      (options : option SendTransactionOptions) (t : Transaction) (w w' : World) :
  (if needsGasPricing transaction options then
     pricing <- await env SP_pricing
                      (getTransactionGasPricing_call (formatTransaction env transaction))
                      (getTransactionGasPricing env (formatTransaction env transaction)) ;;
     ret (spread (formatTransaction env transaction) pricing)
   else ret (formatTransaction env transaction)) w = (Returned t, w') ->
  pricedRequest env transaction options = inr t.
Proof.
  unfold pricedRequest. destruct (needsGasPricing transaction options).
  - rewrite run_bind.
    destruct (await env SP_pricing _ _ w) as [[pricing|e] w1] eqn:E.
    + apply await_returns in E. rewrite E. cbn. intros H. now inversion H.
    + discriminate.
  - cbn. intros H. now inversion H.
Qed.

Lemma sendTransaction_task_steps (env : Env) (transaction : Transaction)
      (options : option SendTransactionOptions) :
  Framed (unsignedStep env transaction options)
         (sendTransaction_task env transaction
            (formatTransaction env transaction) options).
Proof.
  unfold sendTransaction_task.
  apply Framed_bind_returned.
  - destruct (needsGasPricing transaction options) eqn:Hneeds; framed.
  - intros t (w & w' & Ht). apply pricing_block_returns in Ht. framed.
Qed.

Lemma sendSignedTransaction_task_steps (env : Env) (transaction : HexString) :
  Framed (signedStep transaction) (sendSignedTransaction_task env transaction).
Proof. unfold sendSignedTransaction_task. framed. Qed.

(* --------------------------------------------------------------------- *)
(** *** Whole runs *)

Lemma In_actions_grows {A : Type} (P : Action -> list (Tag * Listener) -> Prop)
      (c : Async A) (w : World) (a : Action) :
  Framed P c -> In a (actions w) -> In a (actions (snd (c w))).
Proof.
  intros Hc Ha. destruct (Hc w) as (l & _ & Hl & _).
  unfold actions in *. rewrite Hl, map_app. apply in_or_app. now left.
Qed.

Lemma In_actions_bind {A B : Type} (P : Action -> list (Tag * Listener) -> Prop)
      (c : Async A) (k : A -> Async B) (w : World) (a : Action) :
  In a (actions (snd (c w))) -> (forall x, Framed P (k x)) ->
  In a (actions (snd (bind c k w))).
Proof.
  intros Ha Hk. rewrite run_bind. destruct (c w) as [[x|e] w1]; cbn in *.
  - now apply In_actions_grows with (P := P).
  - exact Ha.
Qed.

Lemma await_logs {A : Type} (env : Env) (p : SuspensionPoint) (c : Call)
      (answer : Result A) (w : World) :
  In (ACall c) (actions (snd (await env p c answer w))).
Proof.
  unfold await, actions. destruct answer; cbn; rewrite map_app;
    apply in_or_app; right; now left.
Qed.

Lemma sendTransaction_run (env : Env) (transaction : Transaction)
      (options : option SendTransactionOptions) :
  Frame (unsignedStep env transaction options)
        (on_all (callerAttaches env SP_tick) newPromiEvent)
        (finalWorld env (sendTransaction env transaction options)).
Proof.
  unfold finalWorld, sendTransaction. rewrite eventLoop_single. cbn [snd].
  apply sendTransaction_task_steps.
Qed.

Lemma sendSignedTransaction_run (env : Env) (transaction : HexString) :
  Frame (signedStep transaction)
        (on_all (callerAttaches env SP_tick) newPromiEvent)
        (finalWorld env (sendSignedTransaction env transaction)).
Proof.
  unfold finalWorld, sendSignedTransaction. rewrite eventLoop_single. cbn [snd].
  apply sendSignedTransaction_task_steps.
Qed.

(** What a frame from the fresh handle says about the final world. *)
Lemma Frame_from_fresh (P : Action -> list (Tag * Listener) -> Prop)
      (ticked : list (Tag * Listener)) (w : World) :
  Frame P (on_all ticked newPromiEvent) w ->
  delivered w = emitted_by (log w)
  /\ (forall e, settled w <> Rejected e)
  /\ Forall (fun e => P (act e) (regs e)
                      /\ exists ex', regs e = ticked ++ ex') (log w).
Proof.
  intros (l & ex & Hl & _ & Hd & Hs & Hf). cbn in *.
  rewrite Hl, Hd. repeat split; auto.
  intros e He. destruct Hs as [Hs|[_ [r Hs]]]; congruence.
Qed.

Lemma In_log_step (P : Action -> list (Tag * Listener) -> Prop)
      (ticked : list (Tag * Listener)) (w : World) (a : Action) :
  Frame P (on_all ticked newPromiEvent) w ->
  In a (actions w) ->
  exists e, In e (log w) /\ act e = a /\ P a (regs e).
Proof.
  intros Hf Ha. apply Frame_from_fresh in Hf. destruct Hf as (_ & _ & Hf).
  unfold actions in Ha. apply in_map_iff in Ha. destruct Ha as (e & He & Hin).
  rewrite Forall_forall in Hf. destruct (Hf e Hin) as [Hp _].
  exists e. subst a. auto.
Qed.

Lemma needsGasPricing_spec (transaction : Transaction)
      (options : option SendTransactionOptions) :
  needsGasPricing transaction options = true
  <-> pricingUnresolved transaction options.
Proof.
  unfold needsGasPricing, pricingUnresolved, pricingNotIgnored, is_undefined.
  split.
  - intros H. apply andb_prop in H. destruct H as [H H3].
    apply andb_prop in H. destruct H as [H1 H2].
    repeat split.
    + intros o Ho Hig. subst options. rewrite Hig in H1. discriminate.
    + destruct (gasPrice transaction); [discriminate | reflexivity].
    + intros [Hp Hf].
      destruct (maxPriorityFeePerGas transaction); [|congruence].
      destruct (maxFeePerGas transaction); [discriminate | congruence].
  - intros (H1 & H2 & H3). rewrite H2.
    assert (Hig : match options with
                  | Some o => match ignoreGasPricing o with
                              | Some b => negb b
                              | None => true
                              end
                  | None => true
                  end = true).
    { destruct options as [o|]; [|reflexivity].
      specialize (H1 o eq_refl).
      destruct (ignoreGasPricing o) as [[|]|]; [congruence | reflexivity ..]. }
    rewrite Hig. cbn.
    destruct (maxPriorityFeePerGas transaction); [|reflexivity].
    destruct (maxFeePerGas transaction); [|reflexivity].
    exfalso. apply H3. split; discriminate.
Qed.

(** C3.  [sendTransaction] calls the gas pricing resolver if and only if
    automatic pricing is not disabled, the legacy gas price is unset and
    the fee-market pair is not completely set.  Otherwise the request that
    is broadcast is the formatted request of the caller, untouched by
    pricing.  [sendSignedTransaction] never calls the resolver. *)
Theorem gas_pricing_invoked_iff_unresolved
        (env : Env) (transaction : Transaction)
        (options : option SendTransactionOptions) (signed : HexString) :
  ((exists t, In (ACall (getTransactionGasPricing_call t))
                 (actions (finalWorld env (sendTransaction env transaction options))))
   <-> pricingUnresolved transaction options)
  /\ (~ pricingUnresolved transaction options ->
      In (ACall (eth_sendTransaction (formatTransaction env transaction)))
         (actions (finalWorld env (sendTransaction env transaction options)))
      /\ forall t, In (ACall (eth_sendTransaction t))
                      (actions (finalWorld env (sendTransaction env transaction options))) ->
                   t = formatTransaction env transaction)
  /\ (forall t, ~ In (ACall (getTransactionGasPricing_call t))
                     (actions (finalWorld env (sendSignedTransaction env signed)))).
Proof.
  pose proof (sendTransaction_run env transaction options) as Hrun.
  rewrite <- needsGasPricing_spec.
  split; [split|split].
  - intros (t & Ht).
    destruct (In_log_step _ _ _ _ Hrun Ht) as (e & _ & _ & Hneeds & _).
    exact Hneeds.
  - intros Hneeds. exists (formatTransaction env transaction).
    unfold finalWorld, sendTransaction. rewrite eventLoop_single. cbn [snd].
    unfold sendTransaction_task. rewrite Hneeds.
    apply In_actions_bind with (P := anyStep); [|intros; framed].
    apply In_actions_bind with (P := anyStep); [|intros; framed].
    apply await_logs.
  - intros Hneeds. apply Bool.not_true_is_false in Hneeds. split.
    + unfold finalWorld, sendTransaction. rewrite eventLoop_single. cbn [snd].
      unfold sendTransaction_task. rewrite Hneeds.
      rewrite run_bind. cbn [ret Monad_Async].
      rewrite run_bind. cbn [listenerCount]. rewrite run_bind.
      match goal with
      | |- context [if ?b then emit _ _ else _] => destruct b
      end; cbn [emit ret Monad_Async];
        (apply In_actions_bind with (P := anyStep); [apply await_logs | intros; framed]).
    + intros t Ht.
      destruct (In_log_step _ _ _ _ Hrun Ht) as (e & _ & _ & Hreq).
      cbn in Hreq. unfold pricedRequest in Hreq. rewrite Hneeds in Hreq.
      congruence.
  - intros t Ht.
    destruct (In_log_step _ _ _ _ (sendSignedTransaction_run env signed) Ht)
      as (e & _ & _ & Hfalse).
    exact Hfalse.
Qed.

(* --------------------------------------------------------------------- *)
(** *** Runs that get as far as a stage *)

Lemma emissions_app (l1 l2 : list Entry) :
  emissions (l1 ++ l2) = emissions l1 ++ emissions l2.
Proof. unfold emissions. apply flat_map_app. Qed.

Lemma Passes_step {A B : Type} (c : Async A) (k : A -> Async B)
      (pre mid' mid : World -> Prop) (v : A)
      (P : Action -> list (Tag * Listener) -> Prop) :
  Steps c pre v mid' -> Passes (k v) mid' mid P -> Passes (bind c k) pre mid P.
Proof.
  intros Hc Hk w Hw. destruct (Hc w Hw) as (w' & E & Hw').
  rewrite run_bind, E. now apply Hk.
Qed.

Lemma Passes_here {A : Type} (c : Async A) (mid : World -> Prop)
      (P : Action -> list (Tag * Listener) -> Prop) :
  Framed P c -> Passes c mid mid P.
Proof. intros Hc w Hw. exists w. split; [exact Hw | apply Hc]. Qed.

Section StepRules.

Variable env : Env.
Variables (L : list (Tag * Listener)) (D : list (Listener * Tag * Payload))
          (S : Settlement) (E : list (Tag * Payload)).

Lemma Steps_ret {A : Type} (v : A) : Steps (ret v) (At L D S E) v (At L D S E).
Proof. intros w Hw. now exists w. Qed.

Lemma Steps_listenerCount (t : Tag) :
  Steps (listenerCount t) (At L D S E) (length (registered t L)) (At L D S E).
Proof.
  intros w Hw. exists w. split; [|exact Hw].
  destruct Hw as (Hl & _). unfold listenerCount. now rewrite Hl.
Qed.

Lemma Steps_await {A : Type} (p : SuspensionPoint) (c : Call)
      (answer : Result A) (v : A) :
  answer = inr v ->
  Steps (await env p c answer) (At L D S E) v
        (At (L ++ callerAttaches env p) D S E).
Proof.
  intros -> w (Hl & Hd & Hs & He). eexists. split; [reflexivity|].
  unfold At. cbn. rewrite emissions_app, He, Hl. cbn. rewrite app_nil_r.
  auto.
Qed.

Lemma Steps_emit (t : Tag) (p : Payload) :
  Steps (emit t p) (At L D S E) tt
        (At L (D ++ map (fun x => (x, t, p)) (registered t L)) S
            (E ++ [(t, p)])).
Proof.
  intros w (Hl & Hd & Hs & He). eexists. split; [reflexivity|].
  unfold At. cbn. rewrite emissions_app, He, Hl, Hd. auto.
Qed.

(** [if (listenerCount(t) > 0) emit(t, p)]: the deliveries are those of
    an unguarded emission. *)
Lemma Steps_guarded_emit (t : Tag) (p : Payload) :
  Steps (if 0 <? length (registered t L) then emit t p else ret tt)
        (At L D S E) tt
        (At L (D ++ map (fun x => (x, t, p)) (registered t L)) S
            (E ++ if 0 <? length (registered t L) then [(t, p)] else [])).
Proof.
  destruct (registered t L) as [|x xs] eqn:Hr; cbn [length Nat.ltb Nat.leb].
  - cbn [map]. rewrite !app_nil_r. apply Steps_ret.
  - rewrite <- Hr. apply Steps_emit.
Qed.

Lemma Steps_pricing_block (transaction request : Transaction)
      (options : option SendTransactionOptions) :
  pricedRequest env transaction options = inr request ->
  Steps (if needsGasPricing transaction options then
           pricing <- await env SP_pricing
                            (getTransactionGasPricing_call
                               (formatTransaction env transaction))
                            (getTransactionGasPricing env
                               (formatTransaction env transaction)) ;;
           ret (spread (formatTransaction env transaction) pricing)
         else ret (formatTransaction env transaction))
        (At L D S E) request
        (At (L ++ if needsGasPricing transaction options
                  then callerAttaches env SP_pricing else [])
            D S E).
Proof.
  unfold pricedRequest. destruct (needsGasPricing transaction options).
  - destruct (getTransactionGasPricing env (formatTransaction env transaction))
      as [e|pricing] eqn:Hp; [discriminate|].
    intros Hreq. inversion Hreq; subst request. clear Hreq.
    intros w Hw.
    destruct (Steps_await SP_pricing
                (getTransactionGasPricing_call (formatTransaction env transaction))
                (inr pricing) pricing eq_refl w Hw) as (w' & Ew & Hw').
    exists w'. rewrite run_bind, Ew. split; [reflexivity | exact Hw'].
  - intros Hreq. inversion Hreq; subst request. rewrite app_nil_r.
    apply Steps_ret.
Qed.

End StepRules.

Lemma Steps_poller (env : Env) (txHash : HexString) (r : ReceiptInfo)
      (D : list (Listener * Tag * Payload)) (S : Settlement)
      (E : list (Tag * Payload)) (k : nat) :
  forall (budget attempt : nat) (L : list (Tag * Listener)),
    k < budget ->
    (forall j, j < k ->
               rpc_getTransactionReceipt env txHash (Datatypes.S (attempt + j))
               = inr None) ->
    rpc_getTransactionReceipt env txHash (Datatypes.S (attempt + k))
    = inr (Some r) ->
    Steps (waitForTransactionReceipt_from env budget attempt txHash)
          (At L D S E) r
          (At (L ++ flat_map (fun j => callerAttaches env (SP_poll j))
                             (seq attempt (Datatypes.S k)))
              D S E).
Proof.
  induction k as [|k IH]; intros budget attempt L Hk Hnone Hsome;
    (destruct budget as [|budget]; [lia|]); cbn [waitForTransactionReceipt_from].
  - rewrite Nat.add_0_r in Hsome. intros w Hw.
    destruct (Steps_await env L D S E (SP_poll attempt)
                (eth_getTransactionReceipt txHash) _ _ Hsome w Hw)
      as (w' & Ew & Hw').
    exists w'. rewrite run_bind, Ew. split; [reflexivity|].
    cbn. now rewrite app_nil_r.
  - intros w Hw.
    assert (H0 : rpc_getTransactionReceipt env txHash (Datatypes.S attempt)
                 = inr None).
    { rewrite <- (Nat.add_0_r attempt). apply Hnone. lia. }
    destruct (Steps_await env L D S E (SP_poll attempt)
                (eth_getTransactionReceipt txHash) _ _ H0 w Hw)
      as (w' & Ew & Hw').
    rewrite run_bind, Ew.
    destruct (IH budget (Datatypes.S attempt)
                 (L ++ callerAttaches env (SP_poll attempt))) with (w := w')
      as (w'' & Ew' & Hw'').
    + lia.
    + intros j Hj. rewrite Nat.add_succ_l, <- Nat.add_succ_r. apply Hnone. lia.
    + now rewrite Nat.add_succ_l, <- Nat.add_succ_r.
    + exact Hw'.
    + exists w''. split; [exact Ew'|].
      change (seq attempt (Datatypes.S (Datatypes.S k)))
        with (attempt :: seq (Datatypes.S attempt) (Datatypes.S k)).
      cbn [flat_map]. now rewrite app_assoc.
Qed.

Lemma included_first (env : Env) (txHash : HexString) (r : ReceiptInfo)
      (polls : nat) :
  includedAfter env txHash r polls ->
  rpc_getTransactionReceipt env txHash 0
  = inr (match polls with O => Some r | Datatypes.S _ => None end).
Proof.
  destruct polls as [|k]; cbn; [auto|]. intros (_ & Hnone & _).
  apply Hnone. lia.
Qed.

Lemma Steps_lookup (env : Env) (txHash : HexString) (r : ReceiptInfo)
      (polls : nat) (L : list (Tag * Listener))
      (D : list (Listener * Tag * Payload)) (S : Settlement)
      (E : list (Tag * Payload)) :
  includedAfter env txHash r polls ->
  Steps match (match polls with O => Some r | Datatypes.S _ => None end) with
        | None => waitForTransactionReceipt env txHash
        | Some r' => ret r'
        end
        (At L D S E) r
        (At (L ++ flat_map (fun j => callerAttaches env (SP_poll j)) (seq 0 polls))
            D S E).
Proof.
  destruct polls as [|k]; cbn [includedAfter].
  - intros _. cbn. rewrite app_nil_r. apply Steps_ret.
  - intros (Hk & Hnone & Hsome). unfold waitForTransactionReceipt.
    apply Steps_poller; [exact Hk| |exact Hsome].
    intros j Hj. apply Hnone. cbn. lia.
Qed.

Lemma Steps_resolve (L : list (Tag * Listener))
      (D : list (Listener * Tag * Payload)) (E : list (Tag * Payload))
      (r : ReceiptInfo) :
  Steps (resolve r) (At L D Pending E) tt (At L D (Resolved r) E).
Proof.
  intros w (Hl & Hd & Hs & He). eexists. split; [reflexivity|].
  unfold At. cbn. rewrite emissions_app, He, Hs. cbn. rewrite app_nil_r.
  auto.
Qed.

Section Stages.

Variables (env : Env) (transaction : Transaction)
          (options : option SendTransactionOptions).
Variables (request : Transaction) (txHash : HexString) (r : ReceiptInfo).

Local Abbreviation task :=
  (sendTransaction_task env transaction (formatTransaction env transaction)
                        options).
Local Abbreviation start := (At (callerAttaches env SP_tick) [] Pending []).
Local Abbreviation L1 := (tableAtSending env transaction options).
Local Abbreviation L2 := (tableAtSent env transaction options).
Local Abbreviation L3 := (tableAtReceipt env transaction options).
Local Abbreviation D1 := (deliveriesOf request txHash r sending L1).
Local Abbreviation D2 := (D1 ++ deliveriesOf request txHash r sent L2).
Local Abbreviation D3 := (D2 ++ deliveriesOf request txHash r transactionHash L2).
Local Abbreviation D4 polls := (D3 ++ deliveriesOf request txHash r receipt (L3 polls)).

Lemma passes_sending :
  pricedRequest env transaction options = inr request ->
  exists E, Passes task start (At L1 D1 Pending E) (noEmissionOf sending).
Proof.
  intros Hreq. eexists. unfold sendTransaction_task.
  eapply Passes_step; [apply Steps_pricing_block, Hreq|].
  eapply Passes_step; [apply Steps_listenerCount|].
  eapply Passes_step; [apply Steps_guarded_emit|].
  apply Passes_here. framed.
Qed.

Lemma passes_sent :
  pricedRequest env transaction options = inr request ->
  rpc_sendTransaction env request = inr txHash ->
  exists E, Passes task start (At L2 D2 Pending E) (noEmissionOf sent).
Proof.
  intros Hreq Hsend. eexists. unfold sendTransaction_task.
  eapply Passes_step; [apply Steps_pricing_block, Hreq|].
  eapply Passes_step; [apply Steps_listenerCount|].
  eapply Passes_step; [apply Steps_guarded_emit|].
  eapply Passes_step; [apply Steps_await, Hsend|].
  eapply Passes_step; [apply Steps_listenerCount|].
  eapply Passes_step; [apply Steps_guarded_emit|].
  apply Passes_here. framed.
Qed.

Lemma passes_transactionHash :
  pricedRequest env transaction options = inr request ->
  rpc_sendTransaction env request = inr txHash ->
  exists E, Passes task start (At L2 D3 Pending E)
                   (noEmissionOf transactionHash).
Proof.
  intros Hreq Hsend. eexists. unfold sendTransaction_task.
  eapply Passes_step; [apply Steps_pricing_block, Hreq|].
  eapply Passes_step; [apply Steps_listenerCount|].
  eapply Passes_step; [apply Steps_guarded_emit|].
  eapply Passes_step; [apply Steps_await, Hsend|].
  eapply Passes_step; [apply Steps_listenerCount|].
  eapply Passes_step; [apply Steps_guarded_emit|].
  eapply Passes_step; [apply Steps_listenerCount|].
  eapply Passes_step; [apply Steps_guarded_emit|].
  apply Passes_here. framed.
Qed.

Lemma passes_receipt (polls : nat) :
  pricedRequest env transaction options = inr request ->
  rpc_sendTransaction env request = inr txHash ->
  includedAfter env txHash r polls ->
  exists E,
    In (receipt, PReceipt r) E
    /\ Passes task start (At (L3 polls) (D4 polls) (Resolved r) E)
              (noEmissionOf receipt).
Proof.
  intros Hreq Hsend Hincl. eexists. split; cycle 1.
  - unfold sendTransaction_task.
    eapply Passes_step; [apply Steps_pricing_block, Hreq|].
    eapply Passes_step; [apply Steps_listenerCount|].
    eapply Passes_step; [apply Steps_guarded_emit|].
    eapply Passes_step; [apply Steps_await, Hsend|].
    eapply Passes_step; [apply Steps_listenerCount|].
    eapply Passes_step; [apply Steps_guarded_emit|].
    eapply Passes_step; [apply Steps_listenerCount|].
    eapply Passes_step; [apply Steps_guarded_emit|].
    eapply Passes_step; [apply Steps_await, included_first, Hincl|].
    eapply Passes_step; [apply Steps_lookup, Hincl|].
    eapply Passes_step; [apply Steps_emit|].
    eapply Passes_step; [apply Steps_resolve|].
    apply Passes_here. framed.
  - apply in_or_app. right. now left.
Qed.

End Stages.

(* ===================================================================== *)
(** ** Deliveries *)
(* ===================================================================== *)

Lemma Tag_eqb_eq (a b : Tag) : Tag_eqb a b = true <-> a = b.
Proof. destruct a, b; cbn; split; intros H; congruence. Qed.

Lemma Tag_eqb_refl (a : Tag) : Tag_eqb a a = true.
Proof. now apply Tag_eqb_eq. Qed.

Lemma registered_In (t : Tag) (l : Listener) (table : list (Tag * Listener)) :
  In (t, l) table <-> In l (registered t table).
Proof.
  unfold registered. rewrite in_map_iff. split.
  - intros H. exists (t, l). split; [reflexivity|].
    apply filter_In. split; [exact H | apply Tag_eqb_refl].
  - intros ([t' l'] & Hl & Hin). apply filter_In in Hin.
    destruct Hin as [Hin Ht]. cbn in *. apply Tag_eqb_eq in Ht. now subst.
Qed.

(** Registering a listener delivers nothing: there is no replay buffer. *)
Lemma on_delivers_nothing (t : Tag) (l : Listener) (w : World) :
  delivered (on t l w) = delivered w /\ log (on t l w) = log w.
Proof. split; reflexivity. Qed.

Lemma receivedIn_app (l : Listener) (t : Tag)
      (D1 D2 : list (Listener * Tag * Payload)) :
  receivedIn l t (D1 ++ D2) = receivedIn l t D1 ++ receivedIn l t D2.
Proof. unfold receivedIn. now rewrite filter_app, map_app. Qed.

Lemma receivedIn_map (l : Listener) (t t' : Tag) (p : Payload)
      (xs : list Listener) :
  receivedIn l t (map (fun x => (x, t', p)) xs)
  = if Tag_eqb t' t then repeat p (count_occ Nat.eq_dec xs l) else [].
Proof.
  unfold receivedIn. induction xs as [|x xs IH]; cbn.
  - now destruct (Tag_eqb t' t).
  - destruct (Tag_eqb t' t) eqn:Ht.
    + destruct (Nat.eq_dec x l) as [->|Hne].
      * rewrite Nat.eqb_refl. cbn. now rewrite IH.
      * apply Nat.eqb_neq in Hne. rewrite Hne. cbn. exact IH.
    + rewrite andb_false_r. exact IH.
Qed.

Lemma receivedIn_deliveriesOf (l : Listener) (t t' : Tag)
      (request : Transaction) (txHash : HexString) (r : ReceiptInfo)
      (table : list (Tag * Listener)) :
  receivedIn l t (deliveriesOf request txHash r t' table)
  = if Tag_eqb t' t
    then repeat (stagePayload request txHash r t')
                (count_occ Nat.eq_dec (registered t' table) l)
    else [].
Proof. unfold deliveriesOf. apply receivedIn_map. Qed.

Lemma receivedIn_other_lines (l : Listener) (t : Tag) (lines : list Entry)
      (w : World) :
  Forall (fun e => noEmissionOf t (act e) (regs e)
                   /\ exists ex', regs e = listeners w ++ ex') lines ->
  receivedIn l t (emitted_by lines) = [].
Proof.
  induction 1 as [|e lines [He _] _ IH]; [reflexivity|].
  unfold emitted_by in *. cbn [flat_map]. rewrite receivedIn_app, IH, app_nil_r.
  destruct (act e) as [|t' p| |]; try reflexivity.
  rewrite receivedIn_map. cbn in He.
  destruct (Tag_eqb t' t) eqn:Ht; [|reflexivity].
  apply Tag_eqb_eq in Ht. contradiction.
Qed.

Lemma fresh_start (env : Env) :
  At (callerAttaches env SP_tick) [] Pending []
     (on_all (callerAttaches env SP_tick) newPromiEvent).
Proof. repeat split. Qed.

(** What passing through a stage says about the deliveries of its event. *)
Lemma received_after_stage (env : Env) (task : Async unit) (t : Tag)
      (L : list (Tag * Listener)) (D : list (Listener * Tag * Payload))
      (S : Settlement) (E : list (Tag * Payload)) (l : Listener) :
  Passes task (At (callerAttaches env SP_tick) [] Pending []) (At L D S E)
         (noEmissionOf t) ->
  receivedIn l t
    (delivered (snd (task (on_all (callerAttaches env SP_tick) newPromiEvent))))
  = receivedIn l t D.
Proof.
  intros Hp. destruct (Hp _ (fresh_start env)) as (w1 & (_ & Hd & _) & Hf).
  destruct Hf as (lines & ex & _ & _ & Hdel & _ & Hlines).
  rewrite Hdel, Hd, receivedIn_app.
  rewrite (receivedIn_other_lines l t lines w1 Hlines). apply app_nil_r.
Qed.

Lemma receivedIn_emitted_by (l : Listener) (t : Tag) (lines : list Entry) :
  receivedIn l t (emitted_by lines) = receivedFrom l t lines.
Proof.
  induction lines as [|e lines IH]; [reflexivity|].
  unfold emitted_by, receivedFrom in *. cbn [flat_map].
  rewrite receivedIn_app, IH. f_equal.
  destruct (act e) as [|t' p| |]; try reflexivity.
  apply receivedIn_map.
Qed.

(** In a run from the fresh handle, what a listener has received is what
    the emissions of the log delivered to it. *)
Lemma received_through_emissions
      (P : Action -> list (Tag * Listener) -> Prop)
      (ticked : list (Tag * Listener)) (w : World) (l : Listener) (t : Tag) :
  Frame P (on_all ticked newPromiEvent) w ->
  received l t w = receivedFrom l t (log w).
Proof.
  intros Hf. destruct (Frame_from_fresh _ _ _ Hf) as (Hd & _).
  unfold received. rewrite Hd. apply receivedIn_emitted_by.
Qed.

Section SignedStages.

Variables (env : Env) (transaction txHash : HexString) (r : ReceiptInfo).

Local Abbreviation signedTask := (sendSignedTransaction_task env transaction).
Local Abbreviation signedStart :=
  (At (callerAttaches env SP_tick) [] Pending []).
Local Abbreviation S1 := (signedTableAt env 0 sending).
Local Abbreviation S2 := (signedTableAt env 0 sent).
Local Abbreviation S3 polls := (signedTableAt env polls receipt).
Local Abbreviation delivery t table :=
  (map (fun x => (x, t, signedStagePayload transaction txHash r t))
       (registered t table)).

Lemma signed_passes_stage_sending :
  exists E, Passes signedTask signedStart
                   (At S1 (delivery sending S1) Pending E)
                   (noEmissionOf sending).
Proof.
  eexists. unfold sendSignedTransaction_task.
  eapply Passes_step; [apply Steps_emit|].
  apply Passes_here. framed.
Qed.

Lemma signed_passes_stage_sent :
  rpc_sendRawTransaction env transaction = inr txHash ->
  exists E, Passes signedTask signedStart
                   (At S2 (delivery sending S1 ++ delivery sent S2) Pending E)
                   (noEmissionOf sent).
Proof.
  intros Hsend. eexists. unfold sendSignedTransaction_task.
  eapply Passes_step; [apply Steps_emit|].
  eapply Passes_step; [apply Steps_await, Hsend|].
  eapply Passes_step; [apply Steps_emit|].
  apply Passes_here. framed.
Qed.

Lemma signed_passes_stage_transactionHash :
  rpc_sendRawTransaction env transaction = inr txHash ->
  exists E, Passes signedTask signedStart
                   (At S2 ((delivery sending S1 ++ delivery sent S2)
                           ++ delivery transactionHash S2) Pending E)
                   (noEmissionOf transactionHash).
Proof.
  intros Hsend. eexists. unfold sendSignedTransaction_task.
  eapply Passes_step; [apply Steps_emit|].
  eapply Passes_step; [apply Steps_await, Hsend|].
  eapply Passes_step; [apply Steps_emit|].
  eapply Passes_step; [apply Steps_emit|].
  apply Passes_here. framed.
Qed.

Lemma signed_passes_stage_receipt (polls : nat) :
  rpc_sendRawTransaction env transaction = inr txHash ->
  includedAfter env txHash r polls ->
  exists E, Passes signedTask signedStart
                   (At (S3 polls)
                       (((delivery sending S1 ++ delivery sent S2)
                         ++ delivery transactionHash S2)
                        ++ delivery receipt (S3 polls))
                       (Resolved r) E)
                   (noEmissionOf receipt).
Proof.
  intros Hsend Hincl. eexists. unfold sendSignedTransaction_task.
  eapply Passes_step; [apply Steps_emit|].
  eapply Passes_step; [apply Steps_await, Hsend|].
  eapply Passes_step; [apply Steps_emit|].
  eapply Passes_step; [apply Steps_emit|].
  eapply Passes_step; [apply Steps_await, included_first, Hincl|].
  eapply Passes_step; [apply Steps_lookup, Hincl|].
  eapply Passes_step; [apply Steps_emit|].
  eapply Passes_step; [apply Steps_resolve|].
  apply Passes_here. framed.
Qed.

End SignedStages.

(** The deliveries of the event of a stage of [sendTransaction]. *)
Lemma unsigned_stage_deliveries
      (env : Env) (transaction : Transaction)
      (options : option SendTransactionOptions)
      (request : Transaction) (txHash : HexString) (r : ReceiptInfo)
      (polls : nat) (t : Tag) (l : Listener) :
  reachesStage env transaction options request txHash r polls t ->
  received l t (finalWorld env (sendTransaction env transaction options))
  = repeat (stagePayload request txHash r t)
           (count_occ Nat.eq_dec
                      (registered t (tableAt env transaction options polls t)) l).
Proof.
  intros [Hreq Hstage].
  unfold received, finalWorld, sendTransaction. rewrite eventLoop_single.
  cbn [snd].
  destruct t; cbn [tableAt]; try contradiction.
  - destruct (passes_sending env transaction options request txHash r Hreq)
      as (E & Hp).
    rewrite (received_after_stage _ _ _ _ _ _ _ l Hp).
    now rewrite receivedIn_deliveriesOf.
  - destruct (passes_sent env transaction options request txHash r Hreq Hstage)
      as (E & Hp).
    rewrite (received_after_stage _ _ _ _ _ _ _ l Hp).
    now rewrite receivedIn_app, !receivedIn_deliveriesOf.
  - destruct (passes_transactionHash env transaction options request txHash r
                Hreq Hstage) as (E & Hp).
    rewrite (received_after_stage _ _ _ _ _ _ _ l Hp).
    now rewrite !receivedIn_app, !receivedIn_deliveriesOf.
  - destruct Hstage as [Hsend Hincl].
    destruct (passes_receipt env transaction options request txHash r polls
                Hreq Hsend Hincl) as (E & _ & Hp).
    rewrite (received_after_stage _ _ _ _ _ _ _ l Hp).
    now rewrite !receivedIn_app, !receivedIn_deliveriesOf.
Qed.

(** The deliveries of the event of a stage of [sendSignedTransaction]. *)
Lemma signed_stage_deliveries
      (env : Env) (signed txHash : HexString) (r : ReceiptInfo)
      (polls : nat) (t : Tag) (l : Listener) :
  signedReachesStage env signed txHash r polls t ->
  received l t (finalWorld env (sendSignedTransaction env signed))
  = repeat (signedStagePayload signed txHash r t)
           (count_occ Nat.eq_dec (registered t (signedTableAt env polls t)) l).
Proof.
  intros Hstage.
  unfold received, finalWorld, sendSignedTransaction. rewrite eventLoop_single.
  cbn [snd].
  destruct t; cbn [signedReachesStage] in Hstage; try contradiction.
  - destruct (signed_passes_stage_sending env signed txHash r) as (E & Hp).
    rewrite (received_after_stage _ _ _ _ _ _ _ l Hp).
    now rewrite receivedIn_map.
  - destruct (signed_passes_stage_sent env signed txHash r Hstage) as (E & Hp).
    rewrite (received_after_stage _ _ _ _ _ _ _ l Hp).
    now rewrite receivedIn_app, !receivedIn_map.
  - destruct (signed_passes_stage_transactionHash env signed txHash r Hstage)
      as (E & Hp).
    rewrite (received_after_stage _ _ _ _ _ _ _ l Hp).
    now rewrite !receivedIn_app, !receivedIn_map.
  - destruct Hstage as [Hsend Hincl].
    destruct (signed_passes_stage_receipt env signed txHash r polls Hsend Hincl)
      as (E & Hp).
    rewrite (received_after_stage _ _ _ _ _ _ _ l Hp).
    now rewrite !receivedIn_app, !receivedIn_map.
Qed.

(** C7.  For every tag and on both paths, what a listener receives is,
    emission by emission, the payload once per registration it had in the
    table when the event was emitted; registering a listener delivers
    nothing, so nothing is replayed to a listener attached later.  A
    submission that gets as far as the event of a stage
    delivers it exactly once per registration made before.  For [error]
    the second half fails: a listener registered for [error] right after
    the call receives nothing when the node rejects the broadcast, because
    the body throws without emitting the event. *)
Theorem lifecycle_events_delivered_once_error_never_emitted
        (env : Env) (transaction : Transaction)
        (options : option SendTransactionOptions) (signed : HexString)
        (request : Transaction) (txHash : HexString) (r : ReceiptInfo)
        (polls : nat) (t : Tag) (l : Listener) :
  (received l t (finalWorld env (sendTransaction env transaction options))
   = receivedFrom l t
       (log (finalWorld env (sendTransaction env transaction options)))
   /\ received l t (finalWorld env (sendSignedTransaction env signed))
      = receivedFrom l t
          (log (finalWorld env (sendSignedTransaction env signed)))
   /\ forall w, received l t (on t l w) = received l t w)
  /\ (reachesStage env transaction options request txHash r polls t ->
      received l t (finalWorld env (sendTransaction env transaction options))
      = repeat (stagePayload request txHash r t)
               (count_occ Nat.eq_dec
                          (registered t (tableAt env transaction options polls t))
                          l))
  /\ (signedReachesStage env signed txHash r polls t ->
      received l t (finalWorld env (sendSignedTransaction env signed))
      = repeat (signedStagePayload signed txHash r t)
               (count_occ Nat.eq_dec (registered t (signedTableAt env polls t)) l))
  /\ (In (error, 1) (callerAttaches rejectingEnv SP_tick)
      /\ outcomes rejectingEnv (sendTransaction rejectingEnv transferRequest None)
         = [Thrown intrinsicGasTooLow]
      /\ received 1 error
                  (finalWorld rejectingEnv
                              (sendTransaction rejectingEnv transferRequest None))
         = []
      /\ outcomes rejectingEnv
                  (sendSignedTransaction rejectingEnv signedTransfer)
         = [Thrown intrinsicGasTooLow]
      /\ received 1 error
                  (finalWorld rejectingEnv
                              (sendSignedTransaction rejectingEnv signedTransfer))
         = []).
Proof.
  split; [split; [|split]|split; [|split]].
  - eapply received_through_emissions, sendTransaction_run.
  - eapply received_through_emissions, sendSignedTransaction_run.
  - reflexivity.
  - apply unsigned_stage_deliveries.
  - apply signed_stage_deliveries.
  - split; [cbn; auto 10|]. repeat split; vm_compute; reflexivity.
Qed.

(* ===================================================================== *)
(** ** Emissions *)
(* ===================================================================== *)

Lemma emissions_In (t : Tag) (p : Payload) (l : list Entry) :
  In (t, p) (emissions l) <-> In (AEmit t p) (map act l).
Proof.
  unfold emissions. rewrite in_flat_map, in_map_iff. split.
  - intros (e & He & Hin). exists e. split; [|exact He].
    destruct (act e); cbn in Hin; try contradiction.
    destruct Hin as [Heq|[]]. now inversion Heq.
  - intros (e & Ha & He). exists e. split; [exact He|].
    rewrite Ha. now left.
Qed.

(** What passing through a world says about the emissions of the run. *)
Lemma emitted_after_passing (env : Env) (task : Async unit)
      (P : Action -> list (Tag * Listener) -> Prop)
      (L : list (Tag * Listener)) (D : list (Listener * Tag * Payload))
      (S : Settlement) (E : list (Tag * Payload)) (t : Tag) (p : Payload) :
  Passes task (At (callerAttaches env SP_tick) [] Pending []) (At L D S E) P ->
  In (t, p) E ->
  In (AEmit t p)
     (actions (snd (task (on_all (callerAttaches env SP_tick) newPromiEvent)))).
Proof.
  intros Hp Hin. destruct (Hp _ (fresh_start env)) as (w1 & (_ & _ & _ & He) & Hf).
  destruct Hf as (lines & ex & Hlog & _).
  unfold actions. rewrite Hlog, map_app. apply in_or_app. left.
  apply emissions_In. now rewrite He.
Qed.

Lemma signed_passes_sending (env : Env) (transaction : HexString) :
  Passes (sendSignedTransaction_task env transaction)
         (At (callerAttaches env SP_tick) [] Pending [])
         (At (callerAttaches env SP_tick)
             (map (fun x => (x, sending, PSigned transaction))
                  (registered sending (callerAttaches env SP_tick)))
             Pending [(sending, PSigned transaction)])
         anyStep.
Proof.
  unfold sendSignedTransaction_task.
  eapply Passes_step; [apply Steps_emit|].
  apply Passes_here. framed.
Qed.

Lemma signed_passes_transactionHash (env : Env) (transaction txHash : HexString) :
  rpc_sendRawTransaction env transaction = inr txHash ->
  exists L D,
    Passes (sendSignedTransaction_task env transaction)
           (At (callerAttaches env SP_tick) [] Pending [])
           (At L D Pending [(sending, PSigned transaction);
                            (sent, PSigned transaction);
                            (transactionHash, PHash txHash)])
           anyStep.
Proof.
  intros Hsend. do 2 eexists. unfold sendSignedTransaction_task.
  eapply Passes_step; [apply Steps_emit|].
  eapply Passes_step; [apply Steps_await, Hsend|].
  eapply Passes_step; [apply Steps_emit|].
  eapply Passes_step; [apply Steps_emit|].
  apply Passes_here. framed.
Qed.

(** C9.  In [sendTransaction] a submission that reaches inclusion emits
    [receipt] and resolves the handle whatever the listeners are, while
    every emission of [sending], [sent], [transactionHash] and
    [confirmation] finds a listener of its tag in the table of that
    moment.  [sendSignedTransaction] emits [sending] always, and [sent] and
    [transactionHash] as soon as the broadcast has answered. *)
Theorem receipt_unconditional_other_events_guarded
        (env : Env) (transaction : Transaction)
        (options : option SendTransactionOptions)
        (request : Transaction) (txHash : HexString) (r : ReceiptInfo)
        (polls : nat) (signed : HexString) :
  (reachesStage env transaction options request txHash r polls receipt ->
   result (finalWorld env (sendTransaction env transaction options)) = Resolved r
   /\ In (AEmit receipt (PReceipt r))
         (actions (finalWorld env (sendTransaction env transaction options))))
  /\ (forall e t p,
         In e (log (finalWorld env (sendTransaction env transaction options))) ->
         act e = AEmit t p ->
         In t [sending; sent; transactionHash; confirmation] ->
         registered t (regs e) <> [])
  /\ In (AEmit sending (PSigned signed))
        (actions (finalWorld env (sendSignedTransaction env signed)))
  /\ (forall h,
         rpc_sendRawTransaction env signed = inr h ->
         In (AEmit sent (PSigned signed))
            (actions (finalWorld env (sendSignedTransaction env signed)))
         /\ In (AEmit transactionHash (PHash h))
               (actions (finalWorld env (sendSignedTransaction env signed)))).
Proof.
  split; [|split; [|split]].
  - intros (Hreq & Hsend & Hincl).
    destruct (passes_receipt env transaction options request txHash r polls
                Hreq Hsend Hincl) as (E & Hin & Hp).
    unfold result, finalWorld, sendTransaction. rewrite eventLoop_single.
    cbn [snd]. split.
    + destruct (Hp _ (fresh_start env)) as (w1 & (_ & _ & Hs & _) & Hf).
      destruct Hf as (lines & ex & _ & _ & _ & [Hsame|[Hpend _]] & _);
        congruence.
    + eapply emitted_after_passing; eassumption.
  - intros e t p Hin Hact Ht.
    destruct (Frame_from_fresh _ _ _ (sendTransaction_run env transaction options))
      as (_ & _ & Hsteps).
    rewrite Forall_forall in Hsteps. destruct (Hsteps e Hin) as [Hstep _].
    rewrite Hact in Hstep.
    destruct Ht as [<-|[<-|[<-|[<-|[]]]]]; destruct p; cbn in Hstep; tauto.
  - unfold finalWorld, sendSignedTransaction. rewrite eventLoop_single.
    cbn [snd]. eapply emitted_after_passing; [apply signed_passes_sending|].
    now left.
  - intros h Hsend.
    destruct (signed_passes_transactionHash env signed h Hsend) as (L & D & Hp).
    unfold finalWorld, sendSignedTransaction. rewrite eventLoop_single.
    cbn [snd]. split; (eapply emitted_after_passing; [exact Hp|]); cbn; auto.
Qed.

(** C6.  When the submit call returns, nothing has been emitted or
    delivered on the handle; and a listener the caller registers right
    after the call, before the next tick, is delivered every event of its
    tag that the submission emits. *)
Theorem first_event_deferred_to_next_tick
        (env : Env) (transaction : Transaction)
        (options : option SendTransactionOptions) (signed : HexString)
        (t : Tag) (l : Listener) :
  In (t, l) (callerAttaches env SP_tick) ->
  (log (promiEvent (sendTransaction env transaction options)) = []
   /\ delivered (promiEvent (sendTransaction env transaction options)) = []
   /\ log (promiEvent (sendSignedTransaction env signed)) = []
   /\ delivered (promiEvent (sendSignedTransaction env signed)) = [])
  /\ (forall p,
         In (AEmit t p)
            (actions (finalWorld env (sendTransaction env transaction options))) ->
         In (l, t, p)
            (delivered (finalWorld env (sendTransaction env transaction options))))
  /\ (forall p,
         In (AEmit t p)
            (actions (finalWorld env (sendSignedTransaction env signed))) ->
         In (l, t, p)
            (delivered (finalWorld env (sendSignedTransaction env signed)))).
Proof.
  intros Hattach.
  assert (Hgen : forall P w p,
             Frame P (on_all (callerAttaches env SP_tick) newPromiEvent) w ->
             In (AEmit t p) (actions w) -> In (l, t, p) (delivered w)).
  { intros P w p Hf Hin.
    destruct (In_log_step _ _ _ _ Hf Hin) as (e & He & Hact & _).
    destruct (Frame_from_fresh _ _ _ Hf) as (Hd & _ & Hsteps).
    rewrite Forall_forall in Hsteps. destruct (Hsteps e He) as [_ [ex' Hregs]].
    rewrite Hd. unfold emitted_by. apply in_flat_map. exists e.
    split; [exact He|]. rewrite Hact. apply in_map_iff. exists l.
    split; [reflexivity|]. apply registered_In. rewrite Hregs.
    apply in_or_app. now left. }
  split; [repeat split|split]; intros p.
  - apply Hgen with (P := unsignedStep env transaction options).
    apply sendTransaction_run.
  - apply Hgen with (P := signedStep signed). apply sendSignedTransaction_run.
Qed.

(** What [getSha3] answers is what the node answers to the request it
    builds, an error message being prefixed. *)
Lemma getSha3_sends (send : Web3Eth.RpcRequest -> string + string)
      (data : string) (rpcOptions : option Web3Eth.HttpRpcOptions) :
  (forall result,
      send (Web3Eth.getSha3_request data rpcOptions) = inr result ->
      Web3Eth.getSha3 send data rpcOptions = inr result)
  /\ (forall message,
         send (Web3Eth.getSha3_request data rpcOptions) = inl message ->
         Web3Eth.getSha3 send data rpcOptions
         = inl ("Error getting sha3 hash: " ++ message)%string).
Proof.
  unfold Web3Eth.getSha3. split; intros x Hx; now rewrite Hx.
Qed.

(** C10.  [getSha3] sends the request [eth_sha3] with an empty parameter
    list and answers what the node answers to it: two calls that differ in
    [data] only issue the same request and get the same answer from the
    same node. *)
Theorem getSha3_ignores_data
        (send : Web3Eth.RpcRequest -> string + string) (data1 data2 : string)
        (rpcOptions : option Web3Eth.HttpRpcOptions) :
  Web3Eth.req_method (Web3Eth.getSha3_request data1 rpcOptions) = "eth_sha3"%string
  /\ Web3Eth.req_params (Web3Eth.getSha3_request data1 rpcOptions) = []
  /\ Web3Eth.getSha3_request data1 rpcOptions
     = Web3Eth.getSha3_request data2 rpcOptions
  /\ Web3Eth.getSha3 send data1 rpcOptions = Web3Eth.getSha3 send data2 rpcOptions
  /\ (forall result,
         send (Web3Eth.getSha3_request data1 rpcOptions) = inr result ->
         Web3Eth.getSha3 send data1 rpcOptions = inr result
         /\ Web3Eth.getSha3 send data2 rpcOptions = inr result)
  /\ (forall message,
         send (Web3Eth.getSha3_request data1 rpcOptions) = inl message ->
         Web3Eth.getSha3 send data1 rpcOptions
         = inl ("Error getting sha3 hash: " ++ message)%string
         /\ Web3Eth.getSha3 send data2 rpcOptions
            = inl ("Error getting sha3 hash: " ++ message)%string).
Proof.
  destruct (getSha3_sends send data1 rpcOptions) as [Hok Herr].
  assert (Hsame : Web3Eth.getSha3 send data1 rpcOptions
                  = Web3Eth.getSha3 send data2 rpcOptions) by reflexivity.
  repeat split.
  - now apply Hok.
  - rewrite <- Hsame. now apply Hok.
  - now apply Herr.
  - rewrite <- Hsame. now apply Herr.
Qed.
(* ===================================================================== *)
(** ** How the body ends and what the handle shows *)
(* ===================================================================== *)

Lemma any_await {A : Type} (env : Env) (p : SuspensionPoint) (c : Call)
      (answer : Result A) :
  Framed anyStep (await env p c answer).
Proof. apply Framed_await. intros table. exact I. Qed.

Lemma any_guarded_emit (b : bool) (t : Tag) (p : Payload) :
  Framed anyStep (if b then emit t p else ret tt).
Proof.
  destruct b; [|apply Framed_ret]. apply Framed_emit. intros table. exact I.
Qed.

Lemma any_watcher (env : Env) (r : ReceiptInfo) (txHash : HexString) :
  Framed anyStep (watchTransactionForConfirmations env r txHash).
Proof. apply Framed_watcher. intros a table _. exact I. Qed.

Lemma any_guarded_watch (env : Env) (r : ReceiptInfo) (txHash : HexString) :
  Framed anyStep (n <- listenerCount confirmation ;;
                  if 0 <? n then watchTransactionForConfirmations env r txHash
                  else ret tt).
Proof. apply Framed_guarded_watch. intros a table _ _. exact I. Qed.

(* --------------------------------------------------------------------- *)
(** *** A return leaves the handle resolved *)

Lemma ReturnsResolved_bind {A B : Type}
      (P : Action -> list (Tag * Listener) -> Prop)
      (c : Async A) (k : A -> Async B) :
  Framed P c -> (forall v, ReturnsResolved (k v)) ->
  ReturnsResolved (bind c k).
Proof.
  intros Hc Hk w b Hw. rewrite run_bind.
  destruct (Hc w) as (l & ex & _ & _ & _ & Hs & _).
  destruct (c w) as [[v|e] w1]; cbn in *; [|discriminate].
  apply Hk. intros e He.
  destruct Hs as [Hs|[_ [r Hr]]]; [|congruence].
  apply (Hw e). congruence.
Qed.

(** Once [resolve] is through, whatever follows leaves the handle
    resolved. *)
Lemma ReturnsResolved_resolve {B : Type}
      (P : Action -> list (Tag * Listener) -> Prop)
      (r : ReceiptInfo) (k : Async B) :
  Framed P k -> ReturnsResolved (resolve r ;; k).
Proof.
  intros Hk w b Hw _. rewrite run_bind. cbn [resolve].
  match goal with
  | |- context [k ?w1] =>
      destruct (Hk w1) as (l & ex & _ & _ & _ & Hs & _); cbn in Hs
  end.
  destruct (settled w) as [|r0|e] eqn:Hsw.
  - exists r. destruct Hs as [Hs|[Hp _]]; [exact Hs | discriminate].
  - exists r0. destruct Hs as [Hs|[Hp _]]; [exact Hs | discriminate].
  - exfalso. now apply (Hw e).
Qed.

Lemma ReturnsResolved_from_receipt {B : Type}
      (P : Action -> list (Tag * Listener) -> Prop)
      (env : Env) (txHash : HexString) (k : ReceiptInfo -> Async B) :
  (forall r, Framed P (k r)) ->
  ReturnsResolved
    (first <- await env SP_receipt (eth_getTransactionReceipt txHash)
                    (rpc_getTransactionReceipt env txHash 0) ;;
     r <- match first with
          | None => waitForTransactionReceipt env txHash
          | Some r => ret r
          end ;;
     emit receipt (PReceipt r) ;;
     resolve r ;;
     k r).
Proof.
  intros Hk.
  apply ReturnsResolved_bind with (P := anyStep); [apply any_await|].
  intros first.
  apply ReturnsResolved_bind with (P := anyStep).
  { apply Framed_receipt_lookup. intros table. exact I. }
  intros r.
  apply ReturnsResolved_bind with (P := anyStep);
    [apply (any_guarded_emit true)|].
  intros _. apply ReturnsResolved_resolve with (P := P), Hk.
Qed.

Lemma sendTransaction_task_returns_resolved
      (env : Env) (transaction t0 : Transaction)
      (options : option SendTransactionOptions) :
  ReturnsResolved (sendTransaction_task env transaction t0 options).
Proof.
  unfold sendTransaction_task.
  apply ReturnsResolved_bind with (P := anyStep).
  { destruct (needsGasPricing transaction options); [|apply Framed_ret].
    apply Framed_bind; [apply any_await | intros; apply Framed_ret]. }
  intros t.
  apply ReturnsResolved_bind with (P := anyStep); [apply Framed_listenerCount|].
  intros n1.
  apply ReturnsResolved_bind with (P := anyStep); [apply any_guarded_emit|].
  intros _.
  apply ReturnsResolved_bind with (P := anyStep); [apply any_await|]. intros h.
  apply ReturnsResolved_bind with (P := anyStep); [apply Framed_listenerCount|].
  intros n2.
  apply ReturnsResolved_bind with (P := anyStep); [apply any_guarded_emit|].
  intros _.
  apply ReturnsResolved_bind with (P := anyStep); [apply Framed_listenerCount|].
  intros n3.
  apply ReturnsResolved_bind with (P := anyStep); [apply any_guarded_emit|].
  intros _.
  apply ReturnsResolved_from_receipt with (P := anyStep).
  intros r. apply any_guarded_watch.
Qed.

Lemma sendSignedTransaction_task_returns_resolved
      (env : Env) (transaction : HexString) :
  ReturnsResolved (sendSignedTransaction_task env transaction).
Proof.
  unfold sendSignedTransaction_task.
  apply ReturnsResolved_bind with (P := anyStep);
    [apply (any_guarded_emit true)|]. intros _.
  apply ReturnsResolved_bind with (P := anyStep); [apply any_await|]. intros h.
  apply ReturnsResolved_bind with (P := anyStep);
    [apply (any_guarded_emit true)|]. intros _.
  apply ReturnsResolved_bind with (P := anyStep);
    [apply (any_guarded_emit true)|]. intros _.
  apply ReturnsResolved_from_receipt with (P := anyStep).
  intros r. apply any_watcher.
Qed.

(* --------------------------------------------------------------------- *)
(** *** The watcher never throws into the body *)

Lemma Returning_ret {A : Type} (a : A) : Returning (ret a).
Proof. intros w. now exists a. Qed.

Lemma Returning_bind {A B : Type} (c : Async A) (k : A -> Async B) :
  Returning c -> (forall a, Returning (k a)) -> Returning (bind c k).
Proof.
  intros Hc Hk w. rewrite run_bind. destruct (Hc w) as (a & Ha).
  destruct (c w) as [[a'|e] w1]; cbn in Ha; [apply Hk | discriminate].
Qed.

Lemma Returning_record (a : Action) : Returning (record a).
Proof. intros w. now exists tt. Qed.

Lemma Returning_emit (t : Tag) (p : Payload) : Returning (emit t p).
Proof. intros w. now exists tt. Qed.

Lemma Returning_suspend (env : Env) (p : SuspensionPoint) :
  Returning (suspend env p).
Proof. intros w. now exists tt. Qed.

Lemma Returning_watcher (env : Env) (r : ReceiptInfo) (txHash : HexString) :
  Returning (watchTransactionForConfirmations env r txHash).
Proof.
  unfold watchTransactionForConfirmations.
  apply Returning_bind; [apply Returning_record|]. intros _.
  generalize (blockHeads env) as heads, 0%nat as index, 0%Z as count.
  induction heads as [|[e|h] heads IH]; intros index count; cbn [watch_heads].
  - apply Returning_ret.
  - apply Returning_bind; [apply Returning_record|]. intros _.
    apply Returning_bind; [apply Returning_suspend|]. intros _.
    apply Returning_emit.
  - apply Returning_bind; [apply Returning_record|]. intros _.
    apply Returning_bind; [apply Returning_suspend|]. intros _.
    destruct (count <? h - blockNumber r)%Z; [|apply IH].
    apply Returning_bind; [apply Returning_emit|]. intros _. apply IH.
Qed.

Lemma Returning_guarded_watch (env : Env) (r : ReceiptInfo)
      (txHash : HexString) :
  Returning (n <- listenerCount confirmation ;;
             if 0 <? n then watchTransactionForConfirmations env r txHash
             else ret tt).
Proof.
  apply Returning_bind.
  { intros w. now exists (length (registered confirmation (listeners w))). }
  intros n. destruct (0 <? n); [apply Returning_watcher | apply Returning_ret].
Qed.

(* --------------------------------------------------------------------- *)
(** *** A throw leaves nothing on the handle *)

Lemma errorEvents_line (a : Action) (table : list (Tag * Listener))
      (l : list Entry) :
  flat_map (fun e => match act e with AEmit error p => [p] | _ => [] end)
           (l ++ [mkEntry a table])
  = flat_map (fun e => match act e with AEmit error p => [p] | _ => [] end) l
    ++ match a with AEmit error p => [p] | _ => [] end.
Proof. rewrite flat_map_app. cbn. now rewrite app_nil_r. Qed.

Lemma Unsurfacing_ret {A : Type} (a : A) : Unsurfacing (ret a).
Proof. now intros w. Qed.

Lemma Unsurfacing_throw {A : Type} (e : Error) : Unsurfacing (@throw A e).
Proof. now intros w. Qed.

Lemma Unsurfacing_bind {A B : Type} (c : Async A) (k : A -> Async B) :
  Unsurfacing c -> (forall v, Unsurfacing (k v)) -> Unsurfacing (bind c k).
Proof.
  intros Hc Hk w. rewrite run_bind. destruct (Hc w) as [Hs He].
  destruct (c w) as [[v|e] w1]; cbn in *; [|auto].
  destruct (Hk v w1) as [Hs' He']. split; congruence.
Qed.

Lemma Unsurfacing_listenerCount (t : Tag) : Unsurfacing (listenerCount t).
Proof. now intros w. Qed.

Lemma Unsurfacing_emit (t : Tag) (p : Payload) :
  t <> error -> Unsurfacing (emit t p).
Proof.
  intros Ht w. split; [reflexivity|]. unfold errorEvents. cbn.
  rewrite errorEvents_line. destruct t; try apply app_nil_r. contradiction.
Qed.

Lemma Unsurfacing_guarded_emit (b : bool) (t : Tag) (p : Payload) :
  t <> error -> Unsurfacing (if b then emit t p else ret tt).
Proof.
  intros Ht. destruct b; [now apply Unsurfacing_emit | apply Unsurfacing_ret].
Qed.

Lemma Unsurfacing_await {A : Type} (env : Env) (p : SuspensionPoint) (c : Call)
      (answer : Result A) :
  Unsurfacing (await env p c answer).
Proof.
  intros w. unfold await, errorEvents.
  destruct answer; cbn; rewrite errorEvents_line; cbn; rewrite app_nil_r; auto.
Qed.

Lemma Unsurfacing_lookup (env : Env) (txHash : HexString)
      (first : option ReceiptInfo) :
  Unsurfacing match first with
              | None => waitForTransactionReceipt env txHash
              | Some r => ret r
              end.
Proof.
  destruct first; [apply Unsurfacing_ret|]. unfold waitForTransactionReceipt.
  generalize (pollAttempts env) as budget, 0 as attempt.
  induction budget as [|budget IH]; intros attempt;
    cbn [waitForTransactionReceipt_from]; [apply Unsurfacing_throw|].
  apply Unsurfacing_bind; [apply Unsurfacing_await|].
  intros [r|]; [apply Unsurfacing_ret | apply IH].
Qed.

Lemma ThrowsUnsurfaced_bind {A B : Type} (c : Async A) (k : A -> Async B) :
  Unsurfacing c -> (forall v, ThrowsUnsurfaced (k v)) ->
  ThrowsUnsurfaced (bind c k).
Proof.
  intros Hc Hk w e. rewrite run_bind. destruct (Hc w) as [Hs He].
  destruct (c w) as [[v|e'] w1]; cbn in *.
  - intros Hthrow. destruct (Hk v w1 e Hthrow) as [Hs' He']. split; congruence.
  - intros _. auto.
Qed.

Lemma ThrowsUnsurfaced_returning {A : Type} (c : Async A) :
  Returning c -> ThrowsUnsurfaced c.
Proof. intros Hc w e He. destruct (Hc w) as (a & Ha). congruence. Qed.

Lemma ThrowsUnsurfaced_from_receipt {B : Type} (env : Env) (txHash : HexString)
      (k : ReceiptInfo -> Async B) :
  (forall r, Returning (k r)) ->
  ThrowsUnsurfaced
    (first <- await env SP_receipt (eth_getTransactionReceipt txHash)
                    (rpc_getTransactionReceipt env txHash 0) ;;
     r <- match first with
          | None => waitForTransactionReceipt env txHash
          | Some r => ret r
          end ;;
     emit receipt (PReceipt r) ;;
     resolve r ;;
     k r).
Proof.
  intros Hk.
  apply ThrowsUnsurfaced_bind; [apply Unsurfacing_await|]. intros first.
  apply ThrowsUnsurfaced_bind; [apply Unsurfacing_lookup|]. intros r.
  apply ThrowsUnsurfaced_bind; [apply Unsurfacing_emit; discriminate|].
  intros _. apply ThrowsUnsurfaced_returning.
  apply Returning_bind; [intros w; now exists tt | intros _; apply Hk].
Qed.

Lemma sendTransaction_task_throws_unsurfaced
      (env : Env) (transaction t0 : Transaction)
      (options : option SendTransactionOptions) :
  ThrowsUnsurfaced (sendTransaction_task env transaction t0 options).
Proof.
  unfold sendTransaction_task.
  apply ThrowsUnsurfaced_bind.
  { destruct (needsGasPricing transaction options); [|apply Unsurfacing_ret].
    apply Unsurfacing_bind; [apply Unsurfacing_await|].
    intros p. apply Unsurfacing_ret. }
  intros t.
  apply ThrowsUnsurfaced_bind; [apply Unsurfacing_listenerCount|]. intros n1.
  apply ThrowsUnsurfaced_bind; [apply Unsurfacing_guarded_emit; discriminate|].
  intros _.
  apply ThrowsUnsurfaced_bind; [apply Unsurfacing_await|]. intros h.
  apply ThrowsUnsurfaced_bind; [apply Unsurfacing_listenerCount|]. intros n2.
  apply ThrowsUnsurfaced_bind; [apply Unsurfacing_guarded_emit; discriminate|].
  intros _.
  apply ThrowsUnsurfaced_bind; [apply Unsurfacing_listenerCount|]. intros n3.
  apply ThrowsUnsurfaced_bind; [apply Unsurfacing_guarded_emit; discriminate|].
  intros _.
  apply ThrowsUnsurfaced_from_receipt. intros r. apply Returning_guarded_watch.
Qed.

Lemma sendSignedTransaction_task_throws_unsurfaced
      (env : Env) (transaction : HexString) :
  ThrowsUnsurfaced (sendSignedTransaction_task env transaction).
Proof.
  unfold sendSignedTransaction_task.
  apply ThrowsUnsurfaced_bind; [apply Unsurfacing_emit; discriminate|].
  intros _.
  apply ThrowsUnsurfaced_bind; [apply Unsurfacing_await|]. intros h.
  apply ThrowsUnsurfaced_bind; [apply Unsurfacing_emit; discriminate|].
  intros _.
  apply ThrowsUnsurfaced_bind; [apply Unsurfacing_emit; discriminate|].
  intros _.
  apply ThrowsUnsurfaced_from_receipt. intros r. apply Returning_watcher.
Qed.

Lemma errorEvents_none (lines : list Entry) :
  flat_map (fun e => match act e with AEmit error p => [p] | _ => [] end) lines
  = [] ->
  forall p, ~ In (AEmit error p) (map act lines).
Proof.
  induction lines as [|e lines IH]; cbn; [tauto|].
  intros Hnil p [Ha|Hin].
  - rewrite Ha in Hnil. discriminate.
  - apply app_eq_nil in Hnil. destruct Hnil as [_ Hnil]. now apply (IH Hnil p).
Qed.

Lemma receivedFrom_none (l : Listener) (t : Tag) (lines : list Entry) :
  (forall p, ~ In (AEmit t p) (map act lines)) ->
  receivedFrom l t lines = [].
Proof.
  induction lines as [|e lines IH]; [reflexivity|]. intros Hno.
  unfold receivedFrom in *. cbn [flat_map]. rewrite IH.
  - rewrite app_nil_r. destruct (act e) as [|t' p| |] eqn:Ha; try reflexivity.
    destruct (Tag_eqb t' t) eqn:Ht; [|reflexivity].
    apply Tag_eqb_eq in Ht. subst t'. exfalso. apply (Hno p). cbn. now left.
  - intros p Hin. apply (Hno p). cbn. now right.
Qed.

(** How a single queued body ends decides what the handle shows. *)
Lemma run_ends (env : Env) (task : Async unit) :
  ReturnsResolved task -> ThrowsUnsurfaced task ->
  (outcomes env {| promiEvent := newPromiEvent; immediateQueue := [task] |}
   = [Returned tt]
   <-> exists r, result (finalWorld env {| promiEvent := newPromiEvent;
                                           immediateQueue := [task] |})
                 = Resolved r)
  /\ (forall e,
         outcomes env {| promiEvent := newPromiEvent; immediateQueue := [task] |}
         = [Thrown e] ->
         result (finalWorld env {| promiEvent := newPromiEvent;
                                   immediateQueue := [task] |})
         = Pending
         /\ forall p,
             ~ In (AEmit error p)
                  (actions (finalWorld env {| promiEvent := newPromiEvent;
                                              immediateQueue := [task] |}))).
Proof.
  intros Hret Hthrow. unfold outcomes, finalWorld, result, actions.
  rewrite !eventLoop_single. cbn [fst snd].
  set (w0 := on_all (callerAttaches env SP_tick) newPromiEvent).
  assert (Hpend : forall e, fst (task w0) = Thrown e ->
                            settled (snd (task w0)) = Pending
                            /\ errorEvents (snd (task w0)) = []).
  { intros e He. now destruct (Hthrow w0 e He). }
  split; [split|].
  - intros Ho. apply (Hret w0 tt); [discriminate | congruence].
  - intros (r & Hr). destruct (fst (task w0)) as [[]|e] eqn:Ho; [reflexivity|].
    destruct (Hpend e eq_refl) as [Hp _]. rewrite Hp in Hr. discriminate.
  - intros e Ho. destruct (Hpend e) as [Hp He]; [congruence|].
    split; [exact Hp|]. now apply errorEvents_none.
Qed.

(** Whatever happens, the handle of [sendTransaction] is never rejected:
    the executor takes [resolve] only, and the promise of the body is
    dropped.  When the body throws, the handle stays pending and no
    [error] is emitted or delivered: [error] comes from the confirmation
    watcher only, and the watcher is started after [resolve]. *)
Lemma sendTransaction_surfaces_no_error (env : Env) (transaction : Transaction)
      (options : option SendTransactionOptions) :
  (forall e, result (finalWorld env (sendTransaction env transaction options))
             <> Rejected e)
  /\ (forall e,
         outcomes env (sendTransaction env transaction options) = [Thrown e] ->
         result (finalWorld env (sendTransaction env transaction options))
         = Pending
         /\ (forall p,
                ~ In (AEmit error p)
                     (actions (finalWorld env
                                 (sendTransaction env transaction options))))
         /\ forall l,
             received l error
                      (finalWorld env (sendTransaction env transaction options))
             = []).
Proof.
  pose proof (sendTransaction_run env transaction options) as Hrun. split.
  - now destruct (Frame_from_fresh _ _ _ Hrun) as (_ & Hs & _).
  - intros e He.
    destruct (run_ends env _
                (sendTransaction_task_returns_resolved env transaction
                   (formatTransaction env transaction) options)
                (sendTransaction_task_throws_unsurfaced env transaction
                   (formatTransaction env transaction) options))
      as [_ Hthrown].
    destruct (Hthrown e He) as [Hp Hno]. split; [exact Hp|].
    split; [exact Hno|]. intros l.
    rewrite (received_through_emissions _ _ _ l error Hrun).
    apply receivedFrom_none. exact Hno.
Qed.

Lemma sendSignedTransaction_surfaces_no_error (env : Env) (transaction : HexString) :
  (forall e, result (finalWorld env (sendSignedTransaction env transaction))
             <> Rejected e)
  /\ (forall e,
         outcomes env (sendSignedTransaction env transaction) = [Thrown e] ->
         result (finalWorld env (sendSignedTransaction env transaction))
         = Pending
         /\ (forall p,
                ~ In (AEmit error p)
                     (actions (finalWorld env
                                 (sendSignedTransaction env transaction))))
         /\ forall l,
             received l error
                      (finalWorld env (sendSignedTransaction env transaction))
             = []).
Proof.
  pose proof (sendSignedTransaction_run env transaction) as Hrun. split.
  - now destruct (Frame_from_fresh _ _ _ Hrun) as (_ & Hs & _).
  - intros e He.
    destruct (run_ends env _
                (sendSignedTransaction_task_returns_resolved env transaction)
                (sendSignedTransaction_task_throws_unsurfaced env transaction))
      as [_ Hthrown].
    destruct (Hthrown e He) as [Hp Hno]. split; [exact Hp|].
    split; [exact Hno|]. intros l.
    rewrite (received_through_emissions _ _ _ l error Hrun).
    apply receivedFrom_none. exact Hno.
Qed.

(* ===================================================================== *)
(** ** Failures *)
(* ===================================================================== *)

(** [sendTransaction] starts the confirmation watcher only under a table
    that has a [confirmation] listener. *)
Lemma sendTransaction_watches_only_with_listener
      (env : Env) (transaction : Transaction)
      (options : option SendTransactionOptions) (e : Entry)
      (r : ReceiptInfo) (txHash : HexString) :
  In e (log (finalWorld env (sendTransaction env transaction options))) ->
  act e = AWatch r txHash ->
  registered confirmation (regs e) <> [].
Proof.
  intros Hin Hact.
  destruct (Frame_from_fresh _ _ _ (sendTransaction_run env transaction options))
    as (_ & _ & Hsteps).
  rewrite Forall_forall in Hsteps. destruct (Hsteps e Hin) as [Hstep _].
  rewrite Hact in Hstep. exact Hstep.
Qed.

(** A failed pricing query keeps the request from the network. *)
Lemma pricing_failure_precedes_broadcast (env : Env) (transaction : Transaction)
      (options : option SendTransactionOptions) (e : Error) :
  pricedRequest env transaction options = inl e ->
  forall t, ~ In (ACall (eth_sendTransaction t))
                 (actions (finalWorld env (sendTransaction env transaction options))).
Proof.
  intros Hreq t Hin.
  destruct (In_log_step _ _ _ _ (sendTransaction_run env transaction options) Hin)
    as (x & _ & _ & Hstep).
  cbn in Hstep. congruence.
Qed.

(** C1.  The node rejects the broadcast while a listener for [error] is
    registered: the body throws, the handle stays pending and the listener
    is never called, on either path. *)
Theorem broadcast_error_leaves_handle_pending :
  outcomes rejectingEnv (sendTransaction rejectingEnv transferRequest None)
  = [Thrown intrinsicGasTooLow]
  /\ result (finalWorld rejectingEnv (sendTransaction rejectingEnv transferRequest None))
     = Pending
  /\ In (error, 1)
        (listeners (finalWorld rejectingEnv
                               (sendTransaction rejectingEnv transferRequest None)))
  /\ received 1 error
              (finalWorld rejectingEnv (sendTransaction rejectingEnv transferRequest None))
     = []
  /\ outcomes rejectingEnv (sendSignedTransaction rejectingEnv signedTransfer)
     = [Thrown intrinsicGasTooLow]
  /\ result (finalWorld rejectingEnv (sendSignedTransaction rejectingEnv signedTransfer))
     = Pending
  /\ received 1 error
              (finalWorld rejectingEnv (sendSignedTransaction rejectingEnv signedTransfer))
     = [].
Proof.
  repeat split; try (vm_compute; reflexivity).
  vm_compute. auto 10.
Qed.

(** C2.  With no listener at all, [sendSignedTransaction] still starts the
    confirmation watcher once the receipt is there; [sendTransaction] does
    not. *)
Theorem signed_path_watches_without_listener :
  listeners (finalWorld quietEnv (sendSignedTransaction quietEnv signedTransfer)) = []
  /\ In (AWatch minedReceipt deadHash)
        (actions (finalWorld quietEnv (sendSignedTransaction quietEnv signedTransfer)))
  /\ ~ In (AWatch minedReceipt deadHash)
          (actions (finalWorld quietEnv (sendTransaction quietEnv transferRequest None))).
Proof.
  split; [reflexivity|]. split.
  - vm_compute. auto 20.
  - vm_compute. intuition discriminate.
Qed.

(** C5.  The pricing query fails: no broadcast is issued, but the handle
    stays pending and the [error] listener is never called. *)
Theorem pricing_failure_stops_before_broadcast_unsurfaced :
  outcomes unpricedEnv (sendTransaction unpricedEnv transferRequest None)
  = [Thrown gasPriceUnavailable]
  /\ (forall t,
         ~ In (ACall (eth_sendTransaction t))
              (actions (finalWorld unpricedEnv
                                   (sendTransaction unpricedEnv transferRequest None))))
  /\ result (finalWorld unpricedEnv (sendTransaction unpricedEnv transferRequest None))
     = Pending
  /\ In (error, 1)
        (listeners (finalWorld unpricedEnv
                               (sendTransaction unpricedEnv transferRequest None)))
  /\ received 1 error
              (finalWorld unpricedEnv (sendTransaction unpricedEnv transferRequest None))
     = [].
Proof.
  split; [vm_compute; reflexivity|]. split.
  - apply pricing_failure_precedes_broadcast
      with (e := gasPriceUnavailable).
    reflexivity.
  - repeat split; try (vm_compute; reflexivity). vm_compute. auto 10.
Qed.

(** C8.  Every receipt query answers null until the deadline: the poller
    gives up with a timeout after the configured attempts, but the handle
    stays pending instead of rejecting with it. *)
Theorem receipt_timeout_leaves_handle_pending :
  outcomes stalledEnv (sendTransaction stalledEnv transferRequest None)
  = [Thrown TimeoutError]
  /\ length (filter (fun a => match a with
                              | ACall (eth_getTransactionReceipt _) => true
                              | _ => false
                              end)
                    (actions (finalWorld stalledEnv
                                         (sendTransaction stalledEnv transferRequest None))))
     = 1 + pollAttempts stalledEnv
  /\ result (finalWorld stalledEnv (sendTransaction stalledEnv transferRequest None))
     = Pending
  /\ result (finalWorld stalledEnv (sendTransaction stalledEnv transferRequest None))
     <> Rejected TimeoutError
  /\ received 1 error
              (finalWorld stalledEnv (sendTransaction stalledEnv transferRequest None))
     = [].
Proof.
  repeat split; try (vm_compute; reflexivity).
  vm_compute. discriminate.
Qed.

(* ===================================================================== *)
(** ** The specification's scenario and instances *)
(* ===================================================================== *)

Example scenario_event_sequence :
  emittedTags (log (finalWorld listeningEnv
                               (sendTransaction listeningEnv transferRequest None)))
  = [sending; sent; transactionHash; receipt; confirmation; confirmation]
  /\ received 1 receipt
              (finalWorld listeningEnv (sendTransaction listeningEnv transferRequest None))
     = [PReceipt minedReceipt]
  /\ result (finalWorld listeningEnv (sendTransaction listeningEnv transferRequest None))
     = Resolved minedReceipt.
Proof. repeat split. Qed.

Lemma listeningEnv_reaches_receipt :
  reachesStage listeningEnv transferRequest None pricedTransfer deadHash
               minedReceipt 2 receipt.
Proof.
  split; [reflexivity|]. split; [reflexivity|]. cbn. split; [lia|].
  split; [|reflexivity].
  intros [|[|j]] Hj; [reflexivity | reflexivity | lia].
Defined.

Lemma quietEnv_reaches_receipt :
  reachesStage quietEnv transferRequest None pricedTransfer deadHash
               minedReceipt 2 receipt.
Proof. exact listeningEnv_reaches_receipt. Defined.

Lemma gas_pricing_gate_witness :
  In (ACall (eth_sendTransaction pricedTransfer))
     (actions (finalWorld quietEnv (sendTransaction quietEnv pricedTransfer None)))
  /\ forall t,
      In (ACall (eth_sendTransaction t))
         (actions (finalWorld quietEnv (sendTransaction quietEnv pricedTransfer None))) ->
      t = pricedTransfer.
Proof.
  apply (proj1 (proj2 (gas_pricing_invoked_iff_unresolved
                         quietEnv pricedTransfer None signedTransfer))).
  intros (_ & Hprice & _). discriminate Hprice.
Defined.

Lemma first_event_deferred_witness :
  In (receipt, 1) (callerAttaches listeningEnv SP_tick)
  /\ forall p,
      In (AEmit receipt p)
         (actions (finalWorld listeningEnv
                              (sendTransaction listeningEnv transferRequest None))) ->
      In (1, receipt, p)
         (delivered (finalWorld listeningEnv
                                (sendTransaction listeningEnv transferRequest None))).
Proof.
  assert (H : In (receipt, 1) (callerAttaches listeningEnv SP_tick)).
  { cbn. auto 10. }
  split; [exact H|].
  exact (proj1 (proj2 (first_event_deferred_to_next_tick
                         listeningEnv transferRequest None signedTransfer
                         receipt 1 H))).
Defined.

Lemma stage_event_delivery_witness :
  received 1 receipt
           (finalWorld listeningEnv (sendTransaction listeningEnv transferRequest None))
  = [PReceipt minedReceipt]
  /\ received 2 receipt
              (finalWorld listeningEnv (sendTransaction listeningEnv transferRequest None))
     = [PReceipt minedReceipt]
  /\ received 2 sending
              (finalWorld listeningEnv (sendTransaction listeningEnv transferRequest None))
     = [].
Proof.
  split; [|split].
  - exact (proj1 (proj2 (lifecycle_events_delivered_once_error_never_emitted
                           listeningEnv transferRequest None signedTransfer
                           pricedTransfer deadHash minedReceipt 2 receipt 1))
                 listeningEnv_reaches_receipt).
  - exact (proj1 (proj2 (lifecycle_events_delivered_once_error_never_emitted
                           listeningEnv transferRequest None signedTransfer
                           pricedTransfer deadHash minedReceipt 2 receipt 2))
                 listeningEnv_reaches_receipt).
  - exact (proj1 (proj2 (lifecycle_events_delivered_once_error_never_emitted
                           listeningEnv transferRequest None signedTransfer
                           pricedTransfer deadHash minedReceipt 2 sending 2))
                 (conj eq_refl I)).
Defined.

Lemma receipt_without_listeners_witness :
  listeners (finalWorld quietEnv (sendTransaction quietEnv transferRequest None)) = []
  /\ result (finalWorld quietEnv (sendTransaction quietEnv transferRequest None))
     = Resolved minedReceipt
  /\ In (AEmit receipt (PReceipt minedReceipt))
        (actions (finalWorld quietEnv (sendTransaction quietEnv transferRequest None))).
Proof.
  split; [reflexivity|].
  exact (proj1 (receipt_unconditional_other_events_guarded
                  quietEnv transferRequest None pricedTransfer deadHash
                  minedReceipt 2 signedTransfer)
               quietEnv_reaches_receipt).
Defined.

(* ===================================================================== *)
(** ** What the events carry *)
(* ===================================================================== *)

(** X1.  Every action of a run of [sendTransaction] that carries a
    transaction (the [sending] and [sent] events, the broadcast call)
    carries the priced request; every action of [sendSignedTransaction]
    that carries signed bytes carries the bytes the caller passed. *)
Theorem announced_request_is_the_broadcast_request
        (env : Env) (transaction : Transaction)
        (options : option SendTransactionOptions) (signed : HexString)
        (a : Action) :
  (In a (actions (finalWorld env (sendTransaction env transaction options))) ->
   forall t, carriedTransaction a = Some t ->
             pricedRequest env transaction options = inr t)
  /\ (In a (actions (finalWorld env (sendSignedTransaction env signed))) ->
      forall raw, carriedBytes a = Some raw -> raw = signed).
Proof.
  split.
  - intros Hin t Ht.
    destruct (In_log_step _ _ _ _ (sendTransaction_run env transaction options) Hin)
      as (e & _ & _ & Hstep).
    destruct a as [[]|[] []| |]; cbn in Ht, Hstep; try discriminate;
      inversion Ht; subst; tauto.
  - intros Hin raw Hraw.
    destruct (In_log_step _ _ _ _ (sendSignedTransaction_run env signed) Hin)
      as (e & _ & _ & Hstep).
    destruct a as [[]|[] []| |]; cbn in Hraw, Hstep; try discriminate;
      inversion Hraw; subst; tauto.
Qed.

(* ===================================================================== *)
(** ** The order of calls, events and resolution *)
(* ===================================================================== *)

Lemma precedes_app (mid : nat) (l1 l2 : list Action) :
  StronglySorted precedes l1 -> Forall (fun a => rank a < mid) l1 ->
  StronglySorted precedes l2 -> Forall (fun a => mid <= rank a) l2 ->
  StronglySorted precedes (l1 ++ l2).
Proof.
  intros S1 F1 S2 F2. induction S1 as [|a l1 S1 IH Ha]; cbn; [exact S2|].
  inversion F1 as [|? ? Hmid F1']; subst.
  constructor; [apply IH, F1'|].
  apply Forall_app; split; [exact Ha|].
  eapply Forall_impl; [|exact F2]. cbn. intros b Hb. left. lia.
Qed.

Lemma precedes_repeats (n : nat) (l1 l2 : list Action) :
  Forall (fun a => rank a = n /\ repeatable a = true) l1 ->
  StronglySorted precedes l2 -> Forall (fun a => n <= rank a) l2 ->
  StronglySorted precedes (l1 ++ l2).
Proof.
  intros F1 S2 F2. induction F1 as [|a l1 [Hr Hrep] F1 IH]; cbn; [exact S2|].
  constructor; [exact IH|].
  apply Forall_app; split.
  - eapply Forall_impl; [|exact F1]. cbn. intros b [Hb _]. right. split; congruence.
  - eapply Forall_impl; [|exact F2]. cbn. intros b Hb.
    destruct (Nat.eq_dec (rank b) n) as [Heq|Hne].
    + right. split; congruence.
    + left. lia.
Qed.

Lemma Ordered_weaken {A : Type} (lo hi lo' hi' : nat) (c : Async A) :
  lo' <= lo -> hi <= hi' -> Ordered lo hi c -> Ordered lo' hi' c.
Proof.
  intros Hlo Hhi Hc w. destruct (Hc w) as (l & Hl & Hs & Hb).
  exists l. repeat split; auto.
  eapply Forall_impl; [|exact Hb]. cbn. intros a Ha. lia.
Qed.

(** A step that writes nothing, then the rest. *)
Lemma Ordered_after {A B : Type} (lo hi : nat) (c : Async A) (k : A -> Async B) :
  Framed noStep c -> (forall a, Ordered lo hi (k a)) -> Ordered lo hi (bind c k).
Proof.
  intros Hc Hk w. rewrite run_bind.
  destruct (Hc w) as (l1 & ex & Hl1 & _ & _ & _ & Hf).
  assert (He : l1 = []).
  { destruct l1 as [|e l1]; [reflexivity|].
    inversion Hf as [|? ? [[] _] _]. }
  subst l1. rewrite app_nil_r in Hl1.
  destruct (c w) as [[a|e] w1]; cbn in Hl1.
  - destruct (Hk a w1) as (l2 & Hl2 & Hs2 & Hb2).
    exists l2. rewrite Hl2, Hl1. auto.
  - exists []. cbn. rewrite app_nil_r. repeat split; auto; constructor.
Qed.

Lemma Ordered_quiet {A : Type} (lo hi : nat) (c : Async A) :
  Framed noStep c -> Ordered lo hi c.
Proof.
  intros Hc w. destruct (Hc w) as (l1 & ex & Hl1 & _ & _ & _ & Hf).
  exists l1. split; [exact Hl1|].
  destruct l1 as [|e l1]; [split; constructor|].
  inversion Hf as [|? ? [[] _] _].
Qed.

(** A step of rank [r], then the rest, all of later rank. *)
Lemma Ordered_then {A B : Type} (lo hi r : nat) (c : Async A) (k : A -> Async B) :
  lo <= r < hi ->
  Ordered r (S r) c -> (forall a, Ordered (S r) hi (k a)) ->
  Ordered lo hi (bind c k).
Proof.
  intros Hr Hc Hk w. rewrite run_bind.
  destruct (Hc w) as (l1 & Hl1 & Hs1 & Hb1).
  destruct (c w) as [[a|e] w1]; cbn in Hl1.
  - destruct (Hk a w1) as (l2 & Hl2 & Hs2 & Hb2).
    exists (l1 ++ l2). rewrite Hl2, Hl1, <- app_assoc, map_app.
    split; [reflexivity|]. split.
    + apply precedes_app with (mid := S r); auto.
      * eapply Forall_impl; [|exact Hb1]. cbn. intros; lia.
      * eapply Forall_impl; [|exact Hb2]. cbn. intros; lia.
    + apply Forall_app; split.
      * eapply Forall_impl; [|exact Hb1]. cbn. intros; lia.
      * eapply Forall_impl; [|exact Hb2]. cbn. intros; lia.
  - exists l1. cbn. repeat split; auto.
    eapply Forall_impl; [|exact Hb1]. cbn. intros; lia.
Qed.

(** Repetitions of the step of rank [n], then the rest. *)
Lemma Ordered_repeating {A B : Type} (n hi : nat) (c : Async A) (k : A -> Async B) :
  n < hi ->
  Framed (repeatsAt n) c -> (forall a, Ordered n hi (k a)) ->
  Ordered n hi (bind c k).
Proof.
  intros Hn Hc Hk w. rewrite run_bind.
  destruct (Hc w) as (l1 & ex & Hl1 & _ & _ & _ & Hf).
  assert (Hf' : Forall (fun a => rank a = n /\ repeatable a = true) (map act l1)).
  { rewrite Forall_map. eapply Forall_impl; [|exact Hf]. now intros e [He _]. }
  destruct (c w) as [[a|e] w1]; cbn in Hl1.
  - destruct (Hk a w1) as (l2 & Hl2 & Hs2 & Hb2).
    exists (l1 ++ l2). rewrite Hl2, Hl1, <- app_assoc, map_app.
    split; [reflexivity|]. split.
    + apply precedes_repeats with (n := n); auto.
      eapply Forall_impl; [|exact Hb2]. cbn. intros; lia.
    + apply Forall_app; split; [|exact Hb2].
      eapply Forall_impl; [|exact Hf']. cbn. intros b [Hb _]. lia.
  - exists l1. cbn. split; [exact Hl1|]. split.
    + rewrite <- (app_nil_r (map act l1)).
      apply precedes_repeats with (n := n); auto; constructor.
    + eapply Forall_impl; [|exact Hf']. cbn. intros b [Hb _]. lia.
Qed.

Lemma Ordered_ret {A : Type} (lo hi : nat) (a : A) : Ordered lo hi (ret a).
Proof. apply Ordered_quiet, Framed_ret. Qed.

Lemma Ordered_emit (t : Tag) (p : Payload) :
  Ordered (rank (AEmit t p)) (S (rank (AEmit t p))) (emit t p).
Proof.
  intros w. exists [mkEntry (AEmit t p) (listeners w)].
  split; [reflexivity|]. cbn [map act]. split; repeat constructor.
Qed.

Lemma Ordered_guarded_emit (b : bool) (t : Tag) (p : Payload) :
  Ordered (rank (AEmit t p)) (S (rank (AEmit t p)))
          (if b then emit t p else ret tt).
Proof. destruct b; [apply Ordered_emit | apply Ordered_ret]. Qed.

Lemma Ordered_resolve (r : ReceiptInfo) : Ordered 7 8 (resolve r).
Proof.
  intros w. exists [mkEntry (AResolve r) (listeners w)].
  split; [reflexivity|]. cbn. split; repeat constructor.
Qed.

Lemma Ordered_await {A : Type} (env : Env) (p : SuspensionPoint) (c : Call)
      (answer : Result A) :
  Ordered (rank (ACall c)) (S (rank (ACall c))) (await env p c answer).
Proof.
  intros w. exists [mkEntry (ACall c) (listeners w)]. split.
  - unfold await. destruct answer; reflexivity.
  - cbn [map act]. split; repeat constructor.
Qed.

Lemma Framed_receipt_query {A : Type} (env : Env) (p : SuspensionPoint)
      (txHash : HexString) (answer : Result A) :
  Framed (repeatsAt 5) (await env p (eth_getTransactionReceipt txHash) answer).
Proof. apply Framed_await. intros table. now split. Qed.

Lemma Ordered_watch_heads (env : Env) (r : ReceiptInfo)
      (heads : list (Result Z)) (index : nat) (count : Z) :
  Ordered 9 11 (watch_heads env r heads index count).
Proof.
  revert index count.
  induction heads as [|[e|h] heads IH]; intros index count; cbn [watch_heads].
  - apply Ordered_ret.
  - apply Ordered_repeating;
      [lia | apply Framed_record; [now split | discriminate]|].
    intros _. apply Ordered_after; [apply Framed_suspend|]. intros _.
    eapply Ordered_weaken; [| |apply (Ordered_emit error)]; cbn; lia.
  - apply Ordered_repeating;
      [lia | apply Framed_record; [now split | discriminate]|].
    intros _. apply Ordered_after; [apply Framed_suspend|]. intros _.
    destruct (count <? h - blockNumber r)%Z; [|apply IH].
    apply Ordered_repeating; [lia| |intros _; apply IH].
    apply Framed_emit. intros table. now split.
Qed.

Lemma Ordered_watcher (env : Env) (r : ReceiptInfo) (txHash : HexString) :
  Ordered 8 11 (watchTransactionForConfirmations env r txHash).
Proof.
  unfold watchTransactionForConfirmations.
  apply Ordered_then with (r := 8); [lia| |].
  - intros w. exists [mkEntry (AWatch r txHash) (listeners w)].
    split; [reflexivity|]. cbn. split; repeat constructor.
  - intros _. apply Ordered_watch_heads.
Qed.

Lemma Framed_lookup_repeats (env : Env) (txHash : HexString)
      (first : option ReceiptInfo) :
  Framed (repeatsAt 5)
         match first with
         | None => waitForTransactionReceipt env txHash
         | Some r => ret r
         end.
Proof. apply Framed_receipt_lookup. intros table. now split. Qed.

(** From the receipt query on, both bodies are the same. *)
Lemma Ordered_from_receipt {B : Type} (env : Env) (txHash : HexString)
      (k : ReceiptInfo -> Async B) :
  (forall r, Ordered 8 11 (k r)) ->
  Ordered 5 11
          (first <- await env SP_receipt (eth_getTransactionReceipt txHash)
                          (rpc_getTransactionReceipt env txHash 0) ;;
           r <- match first with
                | None => waitForTransactionReceipt env txHash
                | Some r => ret r
                end ;;
           emit receipt (PReceipt r) ;;
           resolve r ;;
           k r).
Proof.
  intros Hk.
  apply Ordered_repeating; [lia | apply Framed_receipt_query|]. intros first.
  apply Ordered_repeating; [lia | apply Framed_lookup_repeats|]. intros r.
  apply Ordered_then with (r := 6); [lia | apply (Ordered_emit receipt)|].
  intros _.
  apply Ordered_then with (r := 7); [lia | apply Ordered_resolve|].
  intros _. apply Hk.
Qed.

Lemma sendTransaction_task_ordered (env : Env) (transaction t0 : Transaction)
      (options : option SendTransactionOptions) :
  Ordered 0 11 (sendTransaction_task env transaction t0 options).
Proof.
  unfold sendTransaction_task.
  apply Ordered_then with (r := 0); [lia| |].
  { destruct (needsGasPricing transaction options); [|apply Ordered_ret].
    intros w. rewrite run_bind.
    destruct (Ordered_await env SP_pricing (getTransactionGasPricing_call t0)
                (getTransactionGasPricing env t0) w) as (l & Hl & Hs).
    exists l. split; [|exact Hs].
    destruct (await env SP_pricing _ _ w) as [[p|e] w1]; exact Hl. }
  intros t1.
  apply Ordered_after; [apply Framed_listenerCount|]. intros n1.
  apply Ordered_then with (r := 1); [lia | apply (Ordered_guarded_emit _ sending)|].
  intros _.
  apply Ordered_then with (r := 2);
    [lia | apply (Ordered_await env _ (eth_sendTransaction t1))|].
  intros h.
  apply Ordered_after; [apply Framed_listenerCount|]. intros n2.
  apply Ordered_then with (r := 3); [lia | apply (Ordered_guarded_emit _ sent)|].
  intros _.
  apply Ordered_after; [apply Framed_listenerCount|]. intros n3.
  apply Ordered_then with (r := 4);
    [lia | apply (Ordered_guarded_emit _ transactionHash)|].
  intros _.
  apply Ordered_from_receipt. intros r.
  apply Ordered_after; [apply Framed_listenerCount|]. intros n4.
  destruct (0 <? n4).
  - eapply Ordered_weaken; [| |apply Ordered_watcher]; lia.
  - apply Ordered_ret.
Qed.

Lemma sendSignedTransaction_task_ordered (env : Env) (transaction : HexString) :
  Ordered 0 11 (sendSignedTransaction_task env transaction).
Proof.
  unfold sendSignedTransaction_task.
  apply Ordered_then with (r := 1); [lia | apply (Ordered_emit sending)|].
  intros _.
  apply Ordered_then with (r := 2);
    [lia | apply (Ordered_await env _ (eth_sendRawTransaction transaction))|].
  intros h.
  apply Ordered_then with (r := 3); [lia | apply (Ordered_emit sent)|].
  intros _.
  apply Ordered_then with (r := 4); [lia | apply (Ordered_emit transactionHash)|].
  intros _.
  apply Ordered_from_receipt. intros r.
  eapply Ordered_weaken; [| |apply Ordered_watcher]; lia.
Qed.

Lemma runs_in_program_order
      (env : Env) (transaction : Transaction)
      (options : option SendTransactionOptions) (signed : HexString) :
  StronglySorted precedes
    (actions (finalWorld env (sendTransaction env transaction options)))
  /\ StronglySorted precedes
    (actions (finalWorld env (sendSignedTransaction env signed))).
Proof.
  unfold actions, finalWorld, sendTransaction, sendSignedTransaction.
  rewrite !eventLoop_single. cbn [snd]. split.
  - destruct (sendTransaction_task_ordered env transaction
                (formatTransaction env transaction) options
                (on_all (callerAttaches env SP_tick) newPromiEvent))
      as (l & Hl & Hs & _).
    rewrite Hl. exact Hs.
  - destruct (sendSignedTransaction_task_ordered env signed
                (on_all (callerAttaches env SP_tick) newPromiEvent))
      as (l & Hl & Hs & _).
    rewrite Hl. exact Hs.
Qed.

(** X2.  On both paths the log of a run follows the text of the body:
    pricing call, [sending], broadcast, [sent], [transactionHash], receipt
    queries, [receipt], resolution, watcher, its block-height checks and
    [confirmation]s, [error].  An earlier action never comes after a later
    one, and only receipt queries and the watcher's checks and
    confirmations occur more than once. *)
Theorem actions_in_program_order
        (env : Env) (transaction : Transaction)
        (options : option SendTransactionOptions) (signed : HexString) :
  StronglySorted precedes
    (actions (finalWorld env (sendTransaction env transaction options)))
  /\ StronglySorted precedes
    (actions (finalWorld env (sendSignedTransaction env signed))).
Proof. apply runs_in_program_order. Qed.

Lemma sorted_once (f : Action -> bool) (l : list Action) :
  (forall a, f a = true -> repeatable a = false) ->
  (forall a b, f a = true -> f b = true -> rank a = rank b) ->
  StronglySorted precedes l ->
  length (filter f l) <= 1.
Proof.
  intros Hrep Hrank Hs. induction Hs as [|a l Hs IH Ha]; cbn; [lia|].
  destruct (f a) eqn:Hfa; [|exact IH].
  assert (Hnone : filter f l = []).
  { clear IH Hs. induction l as [|b l IHl]; [reflexivity|].
    inversion Ha as [|? ? Hab Ha']; subst. cbn.
    destruct (f b) eqn:Hfb; [|now apply IHl].
    exfalso. destruct Hab as [Hlt|[_ Hr]].
    - rewrite (Hrank a b Hfa Hfb) in Hlt. lia.
    - rewrite (Hrep a Hfa) in Hr. discriminate. }
  rewrite Hnone. cbn. lia.
Qed.

Lemma filter_single {A : Type} (f : A -> bool) (l : list A) (x : A) :
  length (filter f l) <= 1 -> In x l -> f x = true -> filter f l = [x].
Proof.
  intros Hlen Hin Hfx.
  assert (Hx : In x (filter f l)) by (apply filter_In; auto).
  destruct (filter f l) as [|y [|z ys]]; cbn in *; try lia; try contradiction.
  destruct Hx as [->|[]]. reflexivity.
Qed.

Lemma filter_none {A : Type} (f : A -> bool) (l : list A) :
  (forall x, In x l -> f x = false) -> filter f l = [].
Proof.
  intros H. induction l as [|a l IH]; [reflexivity|]. cbn.
  rewrite (H a (or_introl eq_refl)). apply IH. intros x Hx. apply H. now right.
Qed.

Lemma In_after_step {A B : Type} (c : Async A) (k : A -> Async B)
      (pre mid : World -> Prop) (v : A) (a : Action) :
  Steps c pre v mid ->
  (forall w1, mid w1 -> In a (actions (snd (k v w1)))) ->
  forall w, pre w -> In a (actions (snd (bind c k w))).
Proof.
  intros Hc Hk w Hw. destruct (Hc w Hw) as (w' & E & Hw').
  rewrite run_bind, E. now apply Hk.
Qed.

Lemma priced_request_is_broadcast (env : Env) (transaction : Transaction)
      (options : option SendTransactionOptions) (t : Transaction) :
  pricedRequest env transaction options = inr t ->
  In (ACall (eth_sendTransaction t))
     (actions (finalWorld env (sendTransaction env transaction options))).
Proof.
  intros Hreq. unfold finalWorld, sendTransaction. rewrite eventLoop_single.
  cbn [snd]. unfold sendTransaction_task.
  eapply In_after_step;
    [apply Steps_pricing_block, Hreq | | apply fresh_start].
  intros w1 Hw1.
  eapply In_after_step; [apply Steps_listenerCount | | exact Hw1].
  intros w2 Hw2.
  eapply In_after_step; [apply Steps_guarded_emit | | exact Hw2].
  intros w3 _.
  apply In_actions_bind with (P := anyStep); [apply await_logs | intros; framed].
Qed.

Lemma signed_bytes_are_broadcast (env : Env) (signed : HexString) :
  In (ACall (eth_sendRawTransaction signed))
     (actions (finalWorld env (sendSignedTransaction env signed))).
Proof.
  unfold finalWorld, sendSignedTransaction. rewrite eventLoop_single.
  cbn [snd]. unfold sendSignedTransaction_task.
  eapply In_after_step; [apply Steps_emit | | apply fresh_start].
  intros w1 _.
  apply In_actions_bind with (P := anyStep); [apply await_logs | intros; framed].
Qed.

Lemma isBroadcast_once (l : list Action) :
  StronglySorted precedes l -> length (filter isBroadcast l) <= 1.
Proof.
  apply sorted_once.
  - intros [[]|[]| |]; cbn; congruence.
  - intros [[]|[]| |] [[]|[]| |]; cbn; congruence.
Qed.

(** X3.  The broadcast is never repeated: a run issues it at most once,
    with the priced request or the caller's bytes, and not at all when
    pricing failed.  With no [sending] listener attached before it (so
    that no listener runs between pricing and the call) it is issued
    exactly once. *)
Theorem broadcast_issued_at_most_once
        (env : Env) (transaction : Transaction)
        (options : option SendTransactionOptions) (signed : HexString) :
  (length (filter isBroadcast
                  (actions (finalWorld env
                              (sendTransaction env transaction options)))) <= 1
   /\ (forall a,
          In a (filter isBroadcast
                       (actions (finalWorld env
                                   (sendTransaction env transaction options)))) ->
          exists t, pricedRequest env transaction options = inr t
                    /\ a = ACall (eth_sendTransaction t))
   /\ (forall e,
          pricedRequest env transaction options = inl e ->
          filter isBroadcast
                 (actions (finalWorld env
                             (sendTransaction env transaction options))) = [])
   /\ (forall t,
          pricedRequest env transaction options = inr t ->
          registered sending (tableAtSending env transaction options) = [] ->
          filter isBroadcast
                 (actions (finalWorld env
                             (sendTransaction env transaction options)))
          = [ACall (eth_sendTransaction t)]))
  /\ (length (filter isBroadcast
                     (actions (finalWorld env
                                 (sendSignedTransaction env signed)))) <= 1
      /\ (forall a,
             In a (filter isBroadcast
                          (actions (finalWorld env
                                      (sendSignedTransaction env signed)))) ->
             a = ACall (eth_sendRawTransaction signed))
      /\ (registered sending (callerAttaches env SP_tick) = [] ->
          filter isBroadcast
                 (actions (finalWorld env (sendSignedTransaction env signed)))
          = [ACall (eth_sendRawTransaction signed)])).
Proof.
  destruct (runs_in_program_order env transaction options signed)
    as [Hs Hs'].
  assert (Hform : forall a,
             In a (actions (finalWorld env
                              (sendTransaction env transaction options))) ->
             isBroadcast a = true ->
             exists t, pricedRequest env transaction options = inr t
                       /\ a = ACall (eth_sendTransaction t)).
  { intros a Hin Hb.
    destruct (In_log_step _ _ _ _ (sendTransaction_run env transaction options) Hin)
      as (x & _ & _ & Hstep).
    destruct a as [[]|[]| |]; cbn in *; try discriminate; try contradiction.
    eauto. }
  split; [split; [|split; [|split]] | split; [|split]].
  - apply isBroadcast_once, Hs.
  - intros a Ha. apply filter_In in Ha. destruct Ha as [Hin Hb]. now apply Hform.
  - intros e Hreq. apply filter_none. intros a Hin.
    destruct (isBroadcast a) eqn:Hb; [|reflexivity].
    destruct (Hform a Hin Hb) as (t & Ht & _). congruence.
  - intros t Hreq _.
    apply filter_single; [apply isBroadcast_once, Hs | | reflexivity].
    now apply priced_request_is_broadcast.
  - apply isBroadcast_once, Hs'.
  - intros a Ha. apply filter_In in Ha. destruct Ha as [Hin Hb].
    destruct (In_log_step _ _ _ _ (sendSignedTransaction_run env signed) Hin)
      as (x & _ & _ & Hstep).
    destruct a as [[]|[]| |]; cbn in *; try discriminate; try contradiction.
    now subst.
  - intros _.
    apply filter_single; [apply isBroadcast_once, Hs' | | reflexivity].
    apply signed_bytes_are_broadcast.
Qed.

(* ===================================================================== *)
(** ** Relations kept by every step *)
(* ===================================================================== *)

Section Evolution.

Variable R : World -> World -> Prop.
Hypothesis R_refl : forall w, R w w.
Hypothesis R_trans : forall w1 w2 w3, R w1 w2 -> R w2 w3 -> R w1 w3.
Hypothesis R_record : forall a, Evolves R (record a).
Hypothesis R_emit : forall t p, Evolves R (emit t p).
Hypothesis R_resolve : forall r, Evolves R (resolve r).
Hypothesis R_on_all : forall ls w, R w (on_all ls w).

Lemma Evolves_ret {A : Type} (a : A) : Evolves R (ret a).
Proof. intros w. apply R_refl. Qed.

Lemma Evolves_bind {A B : Type} (c : Async A) (k : A -> Async B) :
  Evolves R c -> (forall a, Evolves R (k a)) -> Evolves R (bind c k).
Proof.
  intros Hc Hk w. rewrite run_bind. specialize (Hc w).
  destruct (c w) as [[a|e] w1]; cbn in Hc.
  - eapply R_trans; [exact Hc | apply Hk].
  - exact Hc.
Qed.

Lemma Evolves_await {A : Type} (env : Env) (p : SuspensionPoint) (c : Call)
      (answer : Result A) :
  Evolves R (await env p c answer).
Proof.
  unfold await. apply Evolves_bind; [apply R_record|]. intros _.
  apply Evolves_bind; [intros w; apply R_on_all|]. intros _.
  destruct answer; intros w; apply R_refl.
Qed.

Lemma Evolves_guarded_emit (b : bool) (t : Tag) (p : Payload) :
  Evolves R (if b then emit t p else ret tt).
Proof. destruct b; [apply R_emit | apply Evolves_ret]. Qed.

Lemma Evolves_poller (env : Env) (txHash : HexString) (budget attempt : nat) :
  Evolves R (waitForTransactionReceipt_from env budget attempt txHash).
Proof.
  revert attempt. induction budget as [|budget IH]; intros attempt;
    cbn [waitForTransactionReceipt_from].
  - intros w. apply R_refl.
  - apply Evolves_bind; [apply Evolves_await|].
    intros [r|]; [apply Evolves_ret | apply IH].
Qed.

Lemma Evolves_watcher (env : Env) (r : ReceiptInfo) (txHash : HexString) :
  Evolves R (watchTransactionForConfirmations env r txHash).
Proof.
  unfold watchTransactionForConfirmations.
  apply Evolves_bind; [apply R_record|]. intros _.
  generalize (blockHeads env) as heads, 0%nat as index, 0%Z as count.
  induction heads as [|[e|h] heads IH]; intros index count; cbn [watch_heads].
  - apply Evolves_ret.
  - apply Evolves_bind; [apply R_record|]. intros _.
    apply Evolves_bind; [intros w; apply R_on_all|]. intros _.
    apply R_emit.
  - apply Evolves_bind; [apply R_record|]. intros _.
    apply Evolves_bind; [intros w; apply R_on_all|]. intros _.
    destruct (count <? h - blockNumber r)%Z; [|apply IH].
    apply Evolves_bind; [apply R_emit|]. intros _. apply IH.
Qed.

Lemma Evolves_from_receipt {B : Type} (env : Env) (txHash : HexString)
      (k : ReceiptInfo -> Async B) :
  (forall r, Evolves R (k r)) ->
  Evolves R
          (first <- await env SP_receipt (eth_getTransactionReceipt txHash)
                          (rpc_getTransactionReceipt env txHash 0) ;;
           r <- match first with
                | None => waitForTransactionReceipt env txHash
                | Some r => ret r
                end ;;
           emit receipt (PReceipt r) ;;
           resolve r ;;
           k r).
Proof.
  intros Hk. apply Evolves_bind; [apply Evolves_await|]. intros first.
  apply Evolves_bind.
  { destruct first; [apply Evolves_ret | apply Evolves_poller]. }
  intros r. apply Evolves_bind; [apply R_emit|]. intros _.
  apply Evolves_bind; [apply R_resolve|]. intros _. apply Hk.
Qed.

Lemma Evolves_sendTransaction_task (env : Env) (transaction t0 : Transaction)
      (options : option SendTransactionOptions) :
  Evolves R (sendTransaction_task env transaction t0 options).
Proof.
  unfold sendTransaction_task.
  apply Evolves_bind.
  { destruct (needsGasPricing transaction options); [|apply Evolves_ret].
    apply Evolves_bind; [apply Evolves_await|]. intros p. apply Evolves_ret. }
  intros t1.
  apply Evolves_bind; [intros w; apply R_refl|]. intros n1.
  apply Evolves_bind; [apply Evolves_guarded_emit|]. intros _.
  apply Evolves_bind; [apply Evolves_await|]. intros h.
  apply Evolves_bind; [intros w; apply R_refl|]. intros n2.
  apply Evolves_bind; [apply Evolves_guarded_emit|]. intros _.
  apply Evolves_bind; [intros w; apply R_refl|]. intros n3.
  apply Evolves_bind; [apply Evolves_guarded_emit|]. intros _.
  apply Evolves_from_receipt. intros r.
  apply Evolves_bind; [intros w; apply R_refl|]. intros n4.
  destruct (0 <? n4); [apply Evolves_watcher | apply Evolves_ret].
Qed.

Lemma Evolves_sendSignedTransaction_task (env : Env) (transaction : HexString) :
  Evolves R (sendSignedTransaction_task env transaction).
Proof.
  unfold sendSignedTransaction_task.
  apply Evolves_bind; [apply R_emit|]. intros _.
  apply Evolves_bind; [apply Evolves_await|]. intros h.
  apply Evolves_bind; [apply R_emit|]. intros _.
  apply Evolves_bind; [apply R_emit|]. intros _.
  apply Evolves_from_receipt. intros r. apply Evolves_watcher.
Qed.

End Evolution.

Lemma Resolving_refl (w : World) : Resolving w w.
Proof. exists []. rewrite app_nil_r. auto. Qed.

Lemma Resolving_trans (w1 w2 w3 : World) :
  Resolving w1 w2 -> Resolving w2 w3 -> Resolving w1 w3.
Proof.
  intros (l1 & Hl1 & Hs1) (l2 & Hl2 & Hs2).
  exists (l1 ++ l2). rewrite Hl2, Hl1, <- app_assoc. split; [reflexivity|].
  rewrite map_app.
  destruct Hs2 as [Hs2|(r & Hr & Hin)].
  - destruct Hs1 as [Hs1|(r & Hr & Hin)].
    + left. congruence.
    + right. exists r. split; [congruence|]. apply in_or_app. now left.
  - right. exists r. split; [exact Hr|]. apply in_or_app. now right.
Qed.

Lemma Resolving_line (a : Action) (w w' : World) :
  log w' = log w ++ [mkEntry a (listeners w)] ->
  settled w' = settled w -> Resolving w w'.
Proof. intros Hl Hs. exists [mkEntry a (listeners w)]. auto. Qed.

Lemma Resolving_record (a : Action) : Evolves Resolving (record a).
Proof. intros w. now apply Resolving_line with (a := a). Qed.

Lemma Resolving_emit (t : Tag) (p : Payload) : Evolves Resolving (emit t p).
Proof. intros w. now apply Resolving_line with (a := AEmit t p). Qed.

Lemma Resolving_resolve (r : ReceiptInfo) : Evolves Resolving (resolve r).
Proof.
  intros w. exists [mkEntry (AResolve r) (listeners w)].
  split; [reflexivity|]. cbn.
  destruct (settled w); auto. right. exists r. auto.
Qed.

Lemma sendTransaction_resolving (env : Env) (transaction : Transaction)
      (options : option SendTransactionOptions) (r : ReceiptInfo) :
  result (finalWorld env (sendTransaction env transaction options)) = Resolved r ->
  In (AResolve r)
     (actions (finalWorld env (sendTransaction env transaction options))).
Proof.
  unfold result, actions, finalWorld, sendTransaction.
  rewrite eventLoop_single. cbn [snd]. intros Hres.
  destruct (Evolves_sendTransaction_task Resolving Resolving_refl Resolving_trans
              Resolving_record Resolving_emit Resolving_resolve
              (fun ls w => Resolving_refl (on_all ls w))
              env transaction (formatTransaction env transaction) options
              (on_all (callerAttaches env SP_tick) newPromiEvent))
    as (l & Hl & [Hs|(r' & Hr' & Hin)]).
  - rewrite Hs in Hres. discriminate.
  - rewrite Hl. cbn. congruence.
Qed.

(* ===================================================================== *)
(** ** Where hashes and receipts come from *)
(* ===================================================================== *)

Lemma poller_returns (env : Env) (txHash : HexString) (r : ReceiptInfo)
      (budget : nat) :
  forall (attempt : nat) (w w' : World),
    waitForTransactionReceipt_from env budget attempt txHash w = (Returned r, w') ->
    exists k,
      k < budget
      /\ (forall j, j < k ->
                    rpc_getTransactionReceipt env txHash (S (attempt + j)) = inr None)
      /\ rpc_getTransactionReceipt env txHash (S (attempt + k)) = inr (Some r).
Proof.
  induction budget as [|budget IH]; intros attempt w w';
    cbn [waitForTransactionReceipt_from]; [discriminate|].
  rewrite run_bind.
  destruct (await env (SP_poll attempt) _ _ w) as [[response|e] w1] eqn:E;
    [|discriminate].
  apply await_returns in E. destruct response as [r0|].
  - cbn. intros H. inversion H; subst. exists 0. rewrite Nat.add_0_r.
    repeat split; [lia | intros j Hj; lia | exact E].
  - intros H. destruct (IH _ _ _ H) as (k & Hk & Hnone & Hsome).
    exists (S k). split; [lia|]. split.
    + intros [|j] Hj.
      * now rewrite Nat.add_0_r.
      * rewrite Nat.add_succ_r, <- Nat.add_succ_l. apply Hnone. lia.
    + now rewrite Nat.add_succ_r, <- Nat.add_succ_l.
Qed.

Lemma lookup_returns (env : Env) (txHash : HexString)
      (first : option ReceiptInfo) (r : ReceiptInfo) (w w' : World) :
  rpc_getTransactionReceipt env txHash 0 = inr first ->
  match first with
  | None => waitForTransactionReceipt env txHash
  | Some r' => ret r'
  end w = (Returned r, w') ->
  exists polls, includedAfter env txHash r polls.
Proof.
  intros Hfirst. destruct first as [r'|].
  - cbn. intros H. inversion H; subst. now exists 0.
  - unfold waitForTransactionReceipt. intros H.
    destruct (poller_returns _ _ _ _ _ _ _ H) as (k & Hk & Hnone & Hsome).
    exists (S k). cbn. split; [exact Hk|]. split; [|exact Hsome].
    intros [|j] Hj; [exact Hfirst|]. apply (Hnone j). lia.
Qed.

Lemma proven_early (env : Env) (transaction : Transaction)
      (options : option SendTransactionOptions) (a : Action)
      (table : list (Tag * Listener)) :
  carriedHash a = None -> carriedReceipt a = None ->
  (forall t p, a = AEmit t p -> t = sending) ->
  provenStep env transaction options a table.
Proof.
  intros Hh Hr Ht. split; [|split].
  - intros x Hx. congruence.
  - intros x Hx. congruence.
  - intros t p Ha Hne. exfalso. apply Hne. eapply Ht, Ha.
Qed.

Lemma proven_late (env : Env) (transaction : Transaction)
      (options : option SendTransactionOptions)
      (request : Transaction) (txHash : HexString) (a : Action)
      (table : list (Tag * Listener)) :
  pricedRequest env transaction options = inr request ->
  rpc_sendTransaction env request = inr txHash ->
  (forall h, carriedHash a = Some h -> h = txHash) ->
  (forall r, carriedReceipt a = Some r ->
             exists polls, includedAfter env txHash r polls) ->
  provenStep env transaction options a table.
Proof.
  intros Hreq Hsend Hh Hr. split; [|split].
  - intros h Ha. rewrite (Hh h Ha). now exists request.
  - intros r Ha. destruct (Hr r Ha) as (polls & Hincl).
    exists request, txHash, polls. repeat split; assumption.
  - intros t p _ _. now exists request, txHash.
Qed.

Lemma sendTransaction_task_proven (env : Env) (transaction : Transaction)
      (options : option SendTransactionOptions) :
  Framed (provenStep env transaction options)
         (sendTransaction_task env transaction
            (formatTransaction env transaction) options).
Proof.
  unfold sendTransaction_task.
  apply Framed_bind_returned.
  { destruct (needsGasPricing transaction options); [|apply Framed_ret].
    apply Framed_bind; [|intros; apply Framed_ret].
    apply Framed_await. intros table.
    apply proven_early; [reflexivity | reflexivity | discriminate]. }
  intros t (w & w' & Ht). apply pricing_block_returns in Ht.
  apply Framed_guarded_emit.
  { intros table _. apply proven_early; [reflexivity | reflexivity |].
    intros t' p' H. now inversion H. }
  apply Framed_await_then.
  { intros table. apply proven_early; [reflexivity | reflexivity | discriminate]. }
  intros h Hh.
  apply Framed_guarded_emit.
  { intros table _. apply (proven_late _ _ _ t h); auto; discriminate. }
  apply Framed_guarded_emit.
  { intros table _. apply (proven_late _ _ _ t h); auto; [|discriminate].
    intros x Hx. now inversion Hx. }
  apply Framed_await_then.
  { intros table. apply (proven_late _ _ _ t h); auto; [|discriminate].
    intros x Hx. now inversion Hx. }
  intros first Hfirst.
  apply Framed_bind_returned.
  { apply Framed_receipt_lookup. intros table.
    apply (proven_late _ _ _ t h); auto; [|discriminate].
    intros x Hx. now inversion Hx. }
  intros r (w1 & w1' & Hr).
  pose proof (lookup_returns _ _ _ _ _ _ Hfirst Hr) as Hincl.
  apply Framed_bind.
  { apply Framed_emit. intros table.
    apply (proven_late _ _ _ t h); auto; [discriminate|].
    intros x Hx. now inversion Hx; subst. }
  intros _. apply Framed_bind.
  { apply Framed_resolve. intros table.
    apply (proven_late _ _ _ t h); auto; [discriminate|].
    intros x Hx. now inversion Hx; subst. }
  intros _. apply Framed_bind; [apply Framed_listenerCount|]. intros n.
  destruct (0 <? n); [|apply Framed_ret].
  unfold watchTransactionForConfirmations. apply Framed_bind.
  - apply Framed_record; [|discriminate]. intros table.
    apply (proven_late _ _ _ t h); auto; intros x Hx; now inversion Hx; subst.
  - intros _. apply Framed_watch_heads.
    + intros table. apply (proven_late _ _ _ t h); auto; discriminate.
    + intros c table. apply (proven_late _ _ _ t h); auto; [discriminate|].
      intros x Hx. now inversion Hx; subst.
    + intros e table. apply (proven_late _ _ _ t h); auto; discriminate.
Qed.

Lemma sendTransaction_proven (env : Env) (transaction : Transaction)
      (options : option SendTransactionOptions) (a : Action) :
  In a (actions (finalWorld env (sendTransaction env transaction options))) ->
  provenStep env transaction options a [].
Proof.
  intros Hin.
  assert (Hrun : Frame (provenStep env transaction options)
                       (on_all (callerAttaches env SP_tick) newPromiEvent)
                       (finalWorld env (sendTransaction env transaction options))).
  { unfold finalWorld, sendTransaction. rewrite eventLoop_single. cbn [snd].
    apply sendTransaction_task_proven. }
  destruct (In_log_step _ _ _ _ Hrun Hin) as (e & _ & _ & Hstep). exact Hstep.
Qed.

(** A submission that reaches inclusion emits the receipt and resolves
    with it. *)
Lemma inclusion_resolves (env : Env) (transaction : Transaction)
      (options : option SendTransactionOptions)
      (t : Transaction) (h : HexString) (r : ReceiptInfo) (polls : nat) :
  reachesStage env transaction options t h r polls receipt ->
  result (finalWorld env (sendTransaction env transaction options)) = Resolved r
  /\ In (AEmit receipt (PReceipt r))
        (actions (finalWorld env (sendTransaction env transaction options))).
Proof.
  intros (Hreq & Hsend & Hincl).
  destruct (passes_receipt env transaction options t h r polls Hreq Hsend Hincl)
    as (E & Hin & Hp).
  unfold result, finalWorld, sendTransaction. rewrite eventLoop_single.
  cbn [snd]. split.
  - destruct (Hp _ (fresh_start env)) as (w1 & (_ & _ & Hs & _) & Hf).
    destruct Hf as (lines & ex & _ & _ & _ & [Hsame|[Hpend _]] & _); congruence.
  - eapply emitted_after_passing; eassumption.
Qed.

Lemma includedAfter_answer (env : Env) (h : HexString) (r : ReceiptInfo)
      (polls : nat) :
  includedAfter env h r polls ->
  rpc_getTransactionReceipt env h polls = inr (Some r).
Proof. destruct polls; cbn; [auto|]. now intros (_ & _ & H). Qed.

Lemma includedAfter_absent (env : Env) (h : HexString) (r : ReceiptInfo)
      (polls j : nat) :
  includedAfter env h r polls -> j < polls ->
  rpc_getTransactionReceipt env h j = inr None.
Proof.
  destruct polls as [|k]; [lia|]. cbn. intros (_ & Hnone & _) Hj.
  apply Hnone. lia.
Qed.

(** The node has one receipt for a hash: the first it answers. *)
Lemma includedAfter_unique (env : Env) (h : HexString) (r r' : ReceiptInfo)
      (polls polls' : nat) :
  includedAfter env h r polls -> includedAfter env h r' polls' -> r = r'.
Proof.
  intros H H'.
  pose proof (includedAfter_answer _ _ _ _ H) as Ha.
  pose proof (includedAfter_answer _ _ _ _ H') as Ha'.
  destruct (Nat.lt_trichotomy polls polls') as [Hlt|[Heq|Hgt]].
  - rewrite (includedAfter_absent _ _ _ _ _ H' Hlt) in Ha. discriminate.
  - subst polls'. congruence.
  - rewrite (includedAfter_absent _ _ _ _ _ H Hgt) in Ha'. discriminate.
Qed.

Lemma reachesStage_unique (env : Env) (transaction : Transaction)
      (options : option SendTransactionOptions)
      (t t' : Transaction) (h h' : HexString) (r r' : ReceiptInfo)
      (polls polls' : nat) :
  reachesStage env transaction options t h r polls receipt ->
  reachesStage env transaction options t' h' r' polls' receipt ->
  r = r'.
Proof.
  intros (Hreq & Hsend & Hincl) (Hreq' & Hsend' & Hincl').
  assert (t' = t) by congruence. subst t'.
  assert (h' = h) by congruence. subst h'.
  eapply includedAfter_unique; eassumption.
Qed.

(** Every receipt an action of a run carries is the receipt of an
    inclusion the submission reached. *)
Lemma carried_receipt_included (env : Env) (transaction : Transaction)
      (options : option SendTransactionOptions) (a : Action) (r : ReceiptInfo) :
  In a (actions (finalWorld env (sendTransaction env transaction options))) ->
  carriedReceipt a = Some r ->
  exists t h polls, reachesStage env transaction options t h r polls receipt.
Proof.
  intros Hin Ha.
  destruct (sendTransaction_proven env transaction options a Hin)
    as (_ & Hr & _).
  now apply Hr.
Qed.


(** X5.  In a run of [sendTransaction], every hash an action carries (the
    [transactionHash] event, the receipt queries, the watcher) is the
    node's answer to the broadcast of the priced request; every receipt an
    action carries (the [receipt] event, resolution, the watcher, the
    confirmations) is one the node returned for that hash, and the only
    one the handle can be resolved with; and no event but [sending] is
    emitted unless the node accepted the broadcast. *)
Theorem hashes_and_receipts_come_from_the_node
        (env : Env) (transaction : Transaction)
        (options : option SendTransactionOptions) (a : Action) :
  In a (actions (finalWorld env (sendTransaction env transaction options))) ->
  (forall h, carriedHash a = Some h ->
             exists t, pricedRequest env transaction options = inr t
                       /\ rpc_sendTransaction env t = inr h)
  /\ (forall r, carriedReceipt a = Some r ->
                (exists t h n,
                    pricedRequest env transaction options = inr t
                    /\ rpc_sendTransaction env t = inr h
                    /\ rpc_getTransactionReceipt env h n = inr (Some r))
                /\ forall r',
                    result (finalWorld env
                              (sendTransaction env transaction options))
                    = Resolved r' ->
                    r' = r)
  /\ (forall t p, a = AEmit t p -> t <> sending ->
                  exists request h,
                    pricedRequest env transaction options = inr request
                    /\ rpc_sendTransaction env request = inr h).
Proof.
  intros Hin.
  destruct (sendTransaction_proven env transaction options a Hin)
    as (Hh & Hr & He).
  split; [exact Hh|]. split; [|exact He]. intros r Ha.
  destruct (Hr r Ha) as (t & h & polls & Hreach). split.
  - destruct Hreach as (Hreq & Hsend & Hincl).
    exists t, h, polls. repeat split; auto. now apply includedAfter_answer.
  - intros r' Hres. apply sendTransaction_resolving in Hres.
    destruct (carried_receipt_included _ _ _ _ _ Hres eq_refl)
      as (t' & h' & polls' & Hreach').
    eapply reachesStage_unique; eassumption.
Qed.
(* ===================================================================== *)
(** ** The conversation with the node *)
(* ===================================================================== *)

Lemma calls_line (a : Action) (table : list (Tag * Listener)) (l : list Entry) :
  flat_map (fun e => match act e with ACall c => [c] | _ => [] end)
           (l ++ [mkEntry a table])
  = flat_map (fun e => match act e with ACall c => [c] | _ => [] end) l
    ++ match a with ACall c => [c] | _ => [] end.
Proof. rewrite flat_map_app. cbn. now rewrite app_nil_r. Qed.

Lemma Talks_bind {A B : Type} (c : Async A) (k : A -> Async B)
      (C0 C1 C2 : list Call) (Q : A -> Prop) (Q' : B -> Prop) :
  Talks c C0 C1 Q -> (forall v, Q v -> Talks (k v) C1 C2 Q') ->
  Talks (bind c k) C0 C2 Q'.
Proof.
  intros Hc Hk w Hl Hd Hw.
  destruct (Hc w Hl Hd Hw) as (v & w' & E & Hv & Hl' & Hd' & Hw').
  rewrite run_bind, E. now apply (Hk v Hv).
Qed.

Lemma Talks_ret {A : Type} (v : A) (C : list Call) : Talks (ret v) C C (eq v).
Proof. intros w Hl Hd Hw. now exists v, w. Qed.

Lemma Talks_listenerCount (t : Tag) (C : list Call) :
  Talks (listenerCount t) C C (eq 0).
Proof.
  intros w Hl Hd Hw. exists 0, w. unfold listenerCount. rewrite Hl. auto.
Qed.

Lemma Talks_emit (t : Tag) (p : Payload) (C : list Call) :
  Talks (emit t p) C C (fun _ => True).
Proof.
  intros w Hl Hd Hw. do 2 eexists. split; [reflexivity|]. cbn.
  rewrite Hl, Hd. repeat split.
  unfold calls in *. cbn. now rewrite calls_line, app_nil_r.
Qed.

Lemma Talks_await {A : Type} (env : Env) (p : SuspensionPoint) (c : Call)
      (answer : Result A) (v : A) (C : list Call) :
  unobserved env -> answer = inr v ->
  Talks (await env p c answer) C (C ++ [c]) (eq v).
Proof.
  intros Henv -> w Hl Hd Hw. do 2 eexists. split; [reflexivity|]. cbn.
  rewrite Hl, Hd, (Henv p). repeat split.
  unfold calls in *. cbn. now rewrite calls_line, Hw.
Qed.

Lemma Talks_resolve (r : ReceiptInfo) (C : list Call) :
  Talks (resolve r) C C (fun _ => True).
Proof.
  intros w Hl Hd Hw. do 2 eexists. split; [reflexivity|]. cbn.
  repeat split; auto.
  unfold calls in *. cbn. now rewrite calls_line, app_nil_r.
Qed.

Lemma Talks_poller (env : Env) (txHash : HexString) (r : ReceiptInfo) (k : nat) :
  unobserved env ->
  forall (budget attempt : nat) (C : list Call),
    k < budget ->
    (forall j, j < k ->
               rpc_getTransactionReceipt env txHash (S (attempt + j)) = inr None) ->
    rpc_getTransactionReceipt env txHash (S (attempt + k)) = inr (Some r) ->
    Talks (waitForTransactionReceipt_from env budget attempt txHash)
          C (C ++ repeat (eth_getTransactionReceipt txHash) (S k)) (eq r).
Proof.
  intros Henv.
  induction k as [|k IH]; intros budget attempt C Hk Hnone Hsome;
    (destruct budget as [|budget]; [lia|]); cbn [waitForTransactionReceipt_from].
  - rewrite Nat.add_0_r in Hsome.
    eapply Talks_bind; [apply Talks_await; [exact Henv | exact Hsome]|].
    intros v <-. apply Talks_ret.
  - assert (H0 : rpc_getTransactionReceipt env txHash (S attempt) = inr None).
    { rewrite <- (Nat.add_0_r attempt). apply Hnone. lia. }
    eapply Talks_bind; [apply Talks_await; [exact Henv | exact H0]|].
    intros v <-.
    change (repeat (eth_getTransactionReceipt txHash) (S (S k)))
      with ([eth_getTransactionReceipt txHash]
              ++ repeat (eth_getTransactionReceipt txHash) (S k)).
    rewrite app_assoc. apply IH; [lia| |].
    + intros j Hj. rewrite Nat.add_succ_l, <- Nat.add_succ_r. apply Hnone. lia.
    + now rewrite Nat.add_succ_l, <- Nat.add_succ_r.
Qed.

Lemma Talks_lookup (env : Env) (txHash : HexString) (r : ReceiptInfo)
      (polls : nat) (C : list Call) :
  unobserved env ->
  includedAfter env txHash r polls ->
  Talks match (match polls with O => Some r | S _ => None end) with
        | None => waitForTransactionReceipt env txHash
        | Some r' => ret r'
        end
        C (C ++ repeat (eth_getTransactionReceipt txHash) polls) (eq r).
Proof.
  intros Henv. destruct polls as [|k]; cbn [includedAfter].
  - intros _. cbn. rewrite app_nil_r. apply Talks_ret.
  - intros (Hk & Hnone & Hsome). unfold waitForTransactionReceipt.
    apply Talks_poller; [exact Henv | exact Hk | | exact Hsome].
    intros j Hj. apply Hnone. cbn. lia.
Qed.

(** Without listeners a guarded emission is skipped. *)
Lemma Talks_guarded_emit {B : Type} (t : Tag) (p : Payload) (k : Async B)
      (C0 C1 : list Call) (Q : B -> Prop) :
  Talks k C0 C1 Q ->
  Talks (n <- listenerCount t ;; (if 0 <? n then emit t p else ret tt) ;; k)
        C0 C1 Q.
Proof.
  intros Hk.
  eapply Talks_bind; [apply Talks_listenerCount|]. intros n <-. cbn [Nat.ltb Nat.leb].
  eapply Talks_bind; [apply Talks_ret|]. intros _ _. exact Hk.
Qed.

(** Without a [confirmation] listener the watcher is not started. *)
Lemma Talks_unwatched (env : Env) (r : ReceiptInfo) (txHash : HexString)
      (C : list Call) :
  Talks (n <- listenerCount confirmation ;;
         if 0 <? n then watchTransactionForConfirmations env r txHash
         else ret tt)
        C C (fun _ => True).
Proof.
  eapply Talks_bind; [apply Talks_listenerCount|]. intros n <-.
  cbn [Nat.ltb Nat.leb]. intros w Hl Hd Hw. now exists tt, w.
Qed.

Lemma Talks_pricing_block (env : Env) (transaction request : Transaction)
      (options : option SendTransactionOptions) (C : list Call) :
  unobserved env ->
  pricedRequest env transaction options = inr request ->
  Talks (if needsGasPricing transaction options then
           pricing <- await env SP_pricing
                            (getTransactionGasPricing_call
                               (formatTransaction env transaction))
                            (getTransactionGasPricing env
                               (formatTransaction env transaction)) ;;
           ret (spread (formatTransaction env transaction) pricing)
         else ret (formatTransaction env transaction))
        C
        (C ++ if needsGasPricing transaction options
              then [getTransactionGasPricing_call
                      (formatTransaction env transaction)]
              else [])
        (eq request).
Proof.
  intros Henv. unfold pricedRequest.
  destruct (needsGasPricing transaction options).
  - destruct (getTransactionGasPricing env (formatTransaction env transaction))
      as [e|pricing] eqn:Hp; [discriminate|].
    intros Hreq. inversion Hreq; subst request.
    eapply Talks_bind; [now apply Talks_await|]. intros v <-. apply Talks_ret.
  - intros Hreq. inversion Hreq; subst request. rewrite app_nil_r.
    apply Talks_ret.
Qed.

Lemma sendTransaction_task_talks (env : Env) (transaction : Transaction)
      (options : option SendTransactionOptions)
      (request : Transaction) (txHash : HexString) (r : ReceiptInfo)
      (polls : nat) :
  unobserved env ->
  reachesStage env transaction options request txHash r polls receipt ->
  Talks (sendTransaction_task env transaction
           (formatTransaction env transaction) options)
        [] (conversation env transaction options request txHash polls)
        (fun _ => True).
Proof.
  intros Henv (Hreq & Hsend & Hincl).
  assert (H : exists C,
             Talks (sendTransaction_task env transaction
                      (formatTransaction env transaction) options)
                   [] C (fun _ => True)
             /\ C = conversation env transaction options request txHash polls).
  { eexists. split.
    - unfold sendTransaction_task.
      eapply Talks_bind; [apply Talks_pricing_block; [exact Henv | exact Hreq]|].
      intros v <-. apply Talks_guarded_emit.
      eapply Talks_bind; [apply Talks_await; [exact Henv | exact Hsend]|].
      intros v <-.
      apply Talks_guarded_emit. apply Talks_guarded_emit.
      eapply Talks_bind;
        [apply Talks_await; [exact Henv | apply included_first, Hincl]|].
      intros v <-.
      eapply Talks_bind; [apply Talks_lookup; [exact Henv | exact Hincl]|].
      intros v <-.
      eapply Talks_bind; [apply Talks_emit|]. intros _ _.
      eapply Talks_bind; [apply Talks_resolve|]. intros _ _.
      apply Talks_unwatched.
    - unfold conversation. cbn [app repeat]. rewrite <- !app_assoc.
      reflexivity. }
  destruct H as (C & HC & ->). exact HC.
Qed.

(** X7.  A submission of an unsigned request on which the caller registers
    no listener, and that reaches inclusion, returns and resolves the
    handle with the receipt; its calls are exactly the pricing query when
    pricing is needed, one broadcast, and one receipt query plus one per
    attempt of the poller, all for the hash of the broadcast; the watcher
    is not started and nothing is delivered. *)
Theorem unobserved_submission_conversation
        (env : Env) (transaction : Transaction)
        (options : option SendTransactionOptions)
        (request : Transaction) (txHash : HexString) (r : ReceiptInfo)
        (polls : nat) :
  unobserved env ->
  reachesStage env transaction options request txHash r polls receipt ->
  outcomes env (sendTransaction env transaction options) = [Returned tt]
  /\ result (finalWorld env (sendTransaction env transaction options))
     = Resolved r
  /\ calls (finalWorld env (sendTransaction env transaction options))
     = conversation env transaction options request txHash polls
  /\ delivered (finalWorld env (sendTransaction env transaction options)) = [].
Proof.
  intros Henv Hreach.
  split; [|split; [now destruct (inclusion_resolves _ _ _ _ _ _ _ Hreach)|]];
    unfold outcomes, finalWorld, sendTransaction;
    rewrite !eventLoop_single; cbn [fst snd];
    (destruct (sendTransaction_task_talks env transaction options request txHash
                 r polls Henv Hreach
                 (on_all (callerAttaches env SP_tick) newPromiEvent))
      as ([] & w' & E & _ & _ & Hd & Hc);
     [cbn; apply (Henv SP_tick) | reflexivity | reflexivity |]);
    rewrite E; auto.
Qed.
(* ===================================================================== *)
(** ** Failures of the body never reach the caller *)
(* ===================================================================== *)

(** An [error] event is in the log of a single queued body only if the
    body returned, with the handle resolved: the event is the watcher's. *)
Lemma error_only_after_resolution (env : Env) (task : Async unit) :
  ReturnsResolved task -> ThrowsUnsurfaced task ->
  forall p,
    In (AEmit error p)
       (actions (finalWorld env {| promiEvent := newPromiEvent;
                                   immediateQueue := [task] |})) ->
    exists r, result (finalWorld env {| promiEvent := newPromiEvent;
                                        immediateQueue := [task] |})
              = Resolved r.
Proof.
  intros Hret Hthrow p. unfold finalWorld, result, actions.
  rewrite !eventLoop_single. cbn [fst snd].
  set (w0 := on_all (callerAttaches env SP_tick) newPromiEvent).
  intros Hin. destruct (fst (task w0)) as [[]|e] eqn:Ho.
  - apply (Hret w0 tt); [discriminate | exact Ho].
  - exfalso. destruct (Hthrow w0 e Ho) as [_ He].
    apply (errorEvents_none _ He p Hin).
Qed.

(** X8.  On both paths the queued body returns exactly when the handle is
    resolved.  When the body throws, the handle stays pending, no [error]
    event is emitted and no [error] listener is called.  The handle is
    never rejected, and an [error] event occurs only on a resolved handle:
    it is the watcher's. *)
Theorem body_returns_iff_handle_resolves
        (env : Env) (transaction : Transaction)
        (options : option SendTransactionOptions) (signed : HexString) :
  ((outcomes env (sendTransaction env transaction options) = [Returned tt]
    <-> exists r,
         result (finalWorld env (sendTransaction env transaction options))
         = Resolved r)
   /\ (forall e,
          outcomes env (sendTransaction env transaction options) = [Thrown e] ->
          result (finalWorld env (sendTransaction env transaction options))
          = Pending
          /\ (forall p,
                 ~ In (AEmit error p)
                      (actions (finalWorld env
                                  (sendTransaction env transaction options))))
          /\ forall l,
              received l error
                       (finalWorld env (sendTransaction env transaction options))
              = [])
   /\ (forall e,
          result (finalWorld env (sendTransaction env transaction options))
          <> Rejected e)
   /\ (forall p,
          In (AEmit error p)
             (actions (finalWorld env (sendTransaction env transaction options))) ->
          exists r,
            result (finalWorld env (sendTransaction env transaction options))
            = Resolved r))
  /\ ((outcomes env (sendSignedTransaction env signed) = [Returned tt]
       <-> exists r,
            result (finalWorld env (sendSignedTransaction env signed))
            = Resolved r)
      /\ (forall e,
             outcomes env (sendSignedTransaction env signed) = [Thrown e] ->
             result (finalWorld env (sendSignedTransaction env signed))
             = Pending
             /\ (forall p,
                    ~ In (AEmit error p)
                         (actions (finalWorld env
                                     (sendSignedTransaction env signed))))
             /\ forall l,
                 received l error
                          (finalWorld env (sendSignedTransaction env signed))
                 = [])
      /\ (forall e,
             result (finalWorld env (sendSignedTransaction env signed))
             <> Rejected e)
      /\ (forall p,
             In (AEmit error p)
                (actions (finalWorld env (sendSignedTransaction env signed))) ->
             exists r,
               result (finalWorld env (sendSignedTransaction env signed))
               = Resolved r)).
Proof.
  split.
  - pose proof (sendTransaction_task_returns_resolved env transaction
                  (formatTransaction env transaction) options) as Hret.
    pose proof (sendTransaction_task_throws_unsurfaced env transaction
                  (formatTransaction env transaction) options) as Hthrow.
    destruct (run_ends env _ Hret Hthrow) as [Hiff _].
    destruct (sendTransaction_surfaces_no_error env transaction options)
      as [Hrej Hthrown].
    split; [exact Hiff|]. split; [exact Hthrown|]. split; [exact Hrej|].
    exact (error_only_after_resolution env _ Hret Hthrow).
  - pose proof (sendSignedTransaction_task_returns_resolved env signed) as Hret.
    pose proof (sendSignedTransaction_task_throws_unsurfaced env signed)
      as Hthrow.
    destruct (run_ends env _ Hret Hthrow) as [Hiff _].
    destruct (sendSignedTransaction_surfaces_no_error env signed)
      as [Hrej Hthrown].
    split; [exact Hiff|]. split; [exact Hthrown|]. split; [exact Hrej|].
    exact (error_only_after_resolution env _ Hret Hthrow).
Qed.

(* ===================================================================== *)
(** ** The request of [getSha3] *)
(* ===================================================================== *)

(** X9.  [getSha3] answers what the node answers to a request whose
    [jsonrpc] is never empty: the caller's version when the caller gave a
    non-empty one, [2.0] when there are no options, no version, or the
    empty string; the caller's [id] is forwarded as it is, and there is
    none without options. *)
Theorem getSha3_request_version
        (send : Web3Eth.RpcRequest -> string + string)
        (data : string) (rpcOptions : option Web3Eth.HttpRpcOptions) :
  ((forall result,
       send (Web3Eth.getSha3_request data rpcOptions) = inr result ->
       Web3Eth.getSha3 send data rpcOptions = inr result)
   /\ (forall message,
          send (Web3Eth.getSha3_request data rpcOptions) = inl message ->
          Web3Eth.getSha3 send data rpcOptions
          = inl ("Error getting sha3 hash: " ++ message)%string))
  /\ Web3Eth.req_jsonrpc (Web3Eth.getSha3_request data rpcOptions) <> EmptyString
  /\ (forall o v,
         rpcOptions = Some o -> Web3Eth.jsonrpc o = Some v -> v <> EmptyString ->
         Web3Eth.req_jsonrpc (Web3Eth.getSha3_request data rpcOptions) = v)
  /\ (rpcOptions = None
      \/ (exists o, rpcOptions = Some o
                    /\ (Web3Eth.jsonrpc o = None
                        \/ Web3Eth.jsonrpc o = Some EmptyString)) ->
      Web3Eth.req_jsonrpc (Web3Eth.getSha3_request data rpcOptions)
      = "2.0"%string)
  /\ (forall o,
         rpcOptions = Some o ->
         Web3Eth.req_id (Web3Eth.getSha3_request data rpcOptions) = Web3Eth.id o)
  /\ (rpcOptions = None ->
      Web3Eth.req_id (Web3Eth.getSha3_request data rpcOptions) = None).
Proof.
  split; [apply getSha3_sends|].
  unfold Web3Eth.getSha3_request, Web3Eth.jsonrpc_or_default. cbn.
  split; [|split; [|split; [|split]]].
  - destruct rpcOptions as [[i [[|c s]|]]|]; cbn; discriminate.
  - intros o v -> Hv Hne. rewrite Hv. destruct v; [contradiction | reflexivity].
  - intros [->|(o & -> & [H|H])]; [reflexivity | now rewrite H ..].
  - now intros o ->.
  - now intros ->.
Qed.

(* ===================================================================== *)
(** ** Further instances *)
(* ===================================================================== *)

Lemma listeningEnv_emits_sending :
  In (AEmit sending (PTransaction pricedTransfer))
     (actions (finalWorld listeningEnv
                          (sendTransaction listeningEnv transferRequest None))).
Proof. vm_compute. auto. Defined.

Lemma listeningEnv_emits_transactionHash :
  In (AEmit transactionHash (PHash deadHash))
     (actions (finalWorld listeningEnv
                          (sendTransaction listeningEnv transferRequest None))).
Proof. vm_compute. auto 10. Defined.

Lemma quietEnv_unobserved : unobserved quietEnv.
Proof. intros p. reflexivity. Defined.

(** A failure of the watcher: the handle is resolved, the body has
    returned, and the [error] listener is called once. *)
Example scenario_watcher_failure :
  outcomes lostWatchEnv (sendTransaction lostWatchEnv transferRequest None)
  = [Returned tt]
  /\ result (finalWorld lostWatchEnv
                        (sendTransaction lostWatchEnv transferRequest None))
     = Resolved minedReceipt
  /\ emittedTags (log (finalWorld lostWatchEnv
                                  (sendTransaction lostWatchEnv transferRequest None)))
     = [sending; sent; transactionHash; receipt; confirmation; error]
  /\ received 1 error
              (finalWorld lostWatchEnv
                          (sendTransaction lostWatchEnv transferRequest None))
     = [PError subscriptionLost].
Proof. repeat split. Qed.

Lemma announced_request_witness :
  pricedRequest listeningEnv transferRequest None = inr pricedTransfer.
Proof.
  exact (proj1 (announced_request_is_the_broadcast_request
                  listeningEnv transferRequest None signedTransfer
                  (AEmit sending (PTransaction pricedTransfer)))
               listeningEnv_emits_sending pricedTransfer eq_refl).
Defined.

Lemma broadcast_once_witness :
  filter isBroadcast
         (actions (finalWorld quietEnv (sendTransaction quietEnv transferRequest None)))
  = [ACall (eth_sendTransaction pricedTransfer)].
Proof.
  exact (proj2 (proj2 (proj2 (proj1 (broadcast_issued_at_most_once
                                       quietEnv transferRequest None
                                       signedTransfer))))
               pricedTransfer eq_refl eq_refl).
Defined.


Lemma hash_provenance_witness :
  exists t, pricedRequest listeningEnv transferRequest None = inr t
            /\ rpc_sendTransaction listeningEnv t = inr deadHash.
Proof.
  exact (proj1 (hashes_and_receipts_come_from_the_node
                  listeningEnv transferRequest None
                  (AEmit transactionHash (PHash deadHash))
                  listeningEnv_emits_transactionHash)
               deadHash eq_refl).
Defined.

Lemma conversation_witness :
  outcomes quietEnv (sendTransaction quietEnv transferRequest None)
  = [Returned tt]
  /\ result (finalWorld quietEnv (sendTransaction quietEnv transferRequest None))
     = Resolved minedReceipt
  /\ calls (finalWorld quietEnv (sendTransaction quietEnv transferRequest None))
     = [getTransactionGasPricing_call transferRequest;
        eth_sendTransaction pricedTransfer;
        eth_getTransactionReceipt deadHash;
        eth_getTransactionReceipt deadHash;
        eth_getTransactionReceipt deadHash]
  /\ delivered (finalWorld quietEnv (sendTransaction quietEnv transferRequest None))
     = [].
Proof.
  exact (unobserved_submission_conversation
           quietEnv transferRequest None pricedTransfer deadHash
           minedReceipt 2 quietEnv_unobserved quietEnv_reaches_receipt).
Defined.

Lemma failure_unsurfaced_witness :
  result (finalWorld rejectingEnv (sendTransaction rejectingEnv transferRequest None))
  = Pending
  /\ (forall p,
         ~ In (AEmit error p)
              (actions (finalWorld rejectingEnv
                          (sendTransaction rejectingEnv transferRequest None))))
  /\ forall l,
      received l error
               (finalWorld rejectingEnv
                           (sendTransaction rejectingEnv transferRequest None))
      = [].
Proof.
  exact (proj1 (proj2 (proj1 (body_returns_iff_handle_resolves
                                rejectingEnv transferRequest None signedTransfer)))
               intrinsicGasTooLow eq_refl).
Defined.

Lemma getSha3_version_witness :
  Web3Eth.req_jsonrpc
    (Web3Eth.getSha3_request "0x68656c6c6f"%string None) = "2.0"%string.
Proof.
  exact (proj1 (proj2 (proj2 (proj2 (getSha3_request_version
                                       (fun _ => inr "0x"%string)
                                       "0x68656c6c6f"%string None))))
               (or_introl eq_refl)).
Defined.
